(** * generateAllPlans.ts: branch-and-bound search for the cheapest plan

    Shallow embedding of [src/query-planner-js/src/generateAllPlans.ts].

    - A JavaScript array is a [list]; a slot of a [Choices<T>] array that is
      [undefined] (or a hole left by [new Array(n)]) is [None].
    - The work stack is a list in array order: [stack.pop()] takes the LAST
      element, [stack.push(x)] appends, [stack.unshift(x)] conses in front.
    - [assert] failures and the [TypeError] raised by reading [.length] of
      [undefined] are values of [Error]; a function that can throw returns
      [Error + A].
    - [costFct] returns a JavaScript number; costs are modelled as integers
      ([Z]) with [<] and [>=] as the two comparisons the source uses.
    - The optional index is only ever [0], [index + 1] or [undefined], hence
      [option nat].
    - [onPlan] is an observer: its invocations are recorded, in order, in the
      [calls] component of the loop state. *)

From Stdlib Require Import String List ZArith Lia Bool Arith.
Import ListNotations.

Set Implicit Arguments.

(** ** Errors *)

Inductive Error : Type :=
| AssertionError (message : string)
| TypeError.

Definition bindE {A B : Type} (m : Error + A) (k : A -> Error + B) : Error + B :=
  match m with
  | inl e => inl e
  | inr a => k a
  end.

Notation "'let*' x ':=' m 'in' k" := (bindE m (fun x => k))
  (at level 10, x name, m at level 100, k at level 200).

(** ** Arrays used as a stack *)

Fixpoint pop {A : Type} (stack : list A) : option (A * list A) :=
  match stack with
  | [] => None
  | x :: rest =>
      match pop rest with
      | None => Some (x, [])
      | Some (top, rest') => Some (top, x :: rest')
      end
  end.

Section GenerateAllPlans.

Variables P E : Type.

(** [type Choices<T> = (T | undefined)[]] *)
Definition Choices : Type := list (option E).

(** [type Partial<P, T>] *)
Record Partial : Type := mkPartial {
  partial : P;
  remaining : list Choices;
  isRoot : bool;
  index : option nat
}.

(** The record returned by [extract]. *)
Record ExtractResult : Type := mkExtractResult {
  extracted : E;
  isLast : bool;
  updatedChoices : Choices
}.

(** [let min: { best: P, cost: number } | undefined] *)
Record Min : Type := mkMin {
  best : P;
  cost : Z
}.

(** One invocation [onPlan(p, cost, previousCost)]. *)
Record Call : Type := mkCall {
  callPlan : P;
  callCost : Z;
  callPreviousCost : option Z
}.

(** [x === undefined] on a slot. *)
Definition isUndefined (s : option E) : bool :=
  match s with
  | None => true
  | Some _ => false
  end.

(** ** [insertInStack] *)

Definition insertInStack (elt : Partial) (stack : list Partial) : list Partial :=
  match index elt with
  | Some _ => stack ++ [elt]
  | None => elt :: stack
  end.

(** ** [pickNext] *)

(** The [for] loop of [pickNext], started at slot [i]. *)
Fixpoint firstDefined (i : nat) (remaining : Choices) : option nat :=
  match remaining with
  | [] => None
  | Some _ :: _ => Some i
  | None :: rest => firstDefined (S i) rest
  end.

Definition scanFromStart (remaining : Choices) : Error + nat :=
  match firstDefined 0 remaining with
  | Some i => inr i
  | None => inl (AssertionError "Passed a remaining with all undefined")
  end.

Definition pickNext (index : option nat) (remaining : Choices) : Error + nat :=
  match index with
  | None => scanFromStart remaining
  | Some i =>
      if length remaining <=? i then scanFromStart remaining
      else match nth_error remaining i with
           | Some (Some _) => inr i
           | _ => inl (AssertionError "Invalid index")
           end
  end.

(** ** [extract] *)

(** The [for] loop of [extract] from slot [i] on, entered with the current
    value of [isLast]; [choices] are the slots from [i] on.  It yields the
    final [isLast] and those slots of [updatedChoices]; the slot at [index]
    is never written and stays a hole. *)
Fixpoint extractLoop (i index : nat) (choices : Choices) (isLast : bool)
  : bool * Choices :=
  match choices with
  | [] => (isLast, [])
  | c :: rest =>
      if i =? index then
        let (last, updated) := extractLoop (S i) index rest isLast in
        (last, None :: updated)
      else
        let (last, updated) :=
          extractLoop (S i) index rest (isLast && isUndefined c) in
        (last, c :: updated)
  end.

Definition extract (index : nat) (choices : Choices) : Error + ExtractResult :=
  match nth_error choices index with
  | Some (Some e) =>
      let (last, updated) := extractLoop 0 index choices true in
      inr {| extracted := e; isLast := last; updatedChoices := updated |}
  | _ => inl (AssertionError "Index of choices is undefined")
  end.

(** ** The search driver *)

Variable addFct : P -> E -> P.
Variable costFct : P -> Z.

Record State : Type := mkState {
  stack : list Partial;
  min : option Min;
  calls : list Call
}.

(** [isRoot && index !== undefined && index < nextChoices.length - 1
     ? index + 1 : undefined] *)
Definition siblingIndex (root : bool) (index : option nat) (nextChoices : Choices)
  : option nat :=
  match index with
  | Some i =>
      if root && (Z.of_nat i <? Z.of_nat (length nextChoices) - 1)%Z
      then Some (i + 1)
      else None
  | None => None
  end.

(** The work item re-inserted for the choices that do not pick the
    extracted candidate. *)
Definition sibling (item : Partial) (nextChoices : Choices)
  (otherChoices : list Choices) (x : ExtractResult) : Partial :=
  {| partial := partial item;
     remaining := [updatedChoices x] ++ otherChoices;
     isRoot := isRoot item;
     index := siblingIndex (isRoot item) (index item) nextChoices |}.

(** The work item inserted to decide the next piece. *)
Definition continuation (item : Partial) (otherChoices : list Choices)
  (newPartial : P) : Partial :=
  {| partial := newPartial;
     remaining := otherChoices;
     isRoot := false;
     index := index item |}.

(** One iteration of the [while] loop, after [stack.pop()] returned [item]
    and left [stack0]. *)
Definition body (item : Partial) (stack0 : list Partial) (min0 : option Min)
  (calls0 : list Call) : Error + State :=
  match remaining item with
  | [] => inl TypeError
  | nextChoices :: otherChoices =>
      let* pickedIndex := pickNext (index item) nextChoices in
      let* x := extract pickedIndex nextChoices in
      let stack1 :=
        if isLast x then stack0
        else insertInStack (sibling item nextChoices otherChoices x) stack0 in
      let newPartial := addFct (partial item) (extracted x) in
      if (length otherChoices =? 0) then
        let c := costFct newPartial in
        let isNewMin :=
          match min0 with
          | None => true
          | Some m => (c <? cost m)%Z
          end in
        inr {| stack := stack1;
               min := if isNewMin then Some {| best := newPartial; cost := c |}
                      else min0;
               calls := calls0 ++ [mkCall newPartial c (option_map cost min0)] |}
      else
        let pruned :=
          match min0 with
          | Some m => (costFct newPartial >=? cost m)%Z
          | None => false
          end in
        if pruned then inr {| stack := stack1; min := min0; calls := calls0 |}
        else
          inr {| stack :=
                   insertInStack (continuation item otherChoices newPartial) stack1;
                 min := min0;
                 calls := calls0 |}
  end.

(** The loop test together with one iteration: [None] when the stack is
    empty. *)
Definition step (st : State) : option (Error + State) :=
  match pop (stack st) with
  | None => None
  | Some (item, stack0) => Some (body item stack0 (min st) (calls st))
  end.

(** How a call ends. *)
Inductive Completion : Type :=
| Threw (e : Error)
| Returned (m : Min).

(** [assert(min, ...); return min;] *)
Definition finish (st : State) : Completion :=
  match min st with
  | Some m => Returned m
  | None => Threw (AssertionError "A plan should have been found")
  end.

(** The [while] loop, run for at most [fuel] complete iterations; [None]
    means the fuel was too small. *)
Fixpoint loop (fuel : nat) (st : State) : option (Completion * list Call) :=
  match step st with
  | None => Some (finish st, calls st)
  | Some (inl e) => Some (Threw e, calls st)
  | Some (inr st') =>
      match fuel with
      | O => None
      | S fuel' => loop fuel' st'
      end
  end.

Definition initialState (initial : P) (toAdd : list Choices) : State :=
  {| stack := [{| partial := initial; remaining := toAdd;
                  isRoot := true; index := Some 0 |}];
     min := None;
     calls := [] |}.

(** ** A bound on the number of iterations *)

Definition populatedCount (c : Choices) : nat :=
  length (filter (fun s => negb (isUndefined s)) c).

Fixpoint searchBound (remaining : list Choices) : nat :=
  match remaining with
  | [] => 0
  | c :: rest => populatedCount c * S (searchBound rest)
  end.

Definition stackBound (stack : list Partial) : nat :=
  list_sum (map (fun item => searchBound (remaining item)) stack).

(** The exported function, on the run-time representation of its argument
    (an array of arrays whose slots may be [undefined]).  The result is the
    way the call ends and the observer's invocations up to then.  The loop
    is given [searchBound toAdd] iterations, which is enough on every
    argument ([generateAllPlansAndFindBest_ends] below): the result is never
    [None], and more fuel does not change it. *)
Definition generateAllPlansAndFindBest (initial : P) (toAdd : list Choices)
  : option (Completion * list Call) :=
  loop (searchBound toAdd) (initialState initial toAdd).

(** The argument as its declared type [E[][]] has it: every slot holds a
    candidate. *)
Definition ofArrays (toAdd : list (list E)) : list Choices :=
  map (map (@Some E)) toAdd.

(** ** Reference definitions used in the statements *)

(** The candidates still populated in a choice set, in slot order. *)
Definition candidates (c : Choices) : list E :=
  flat_map (fun s => match s with Some e => [e] | None => [] end) c.

(** Every complete plan that extends [p] with one populated candidate from
    each choice set of [rem], in order. *)
Fixpoint completions (p : P) (rem : list Choices) : list P :=
  match rem with
  | [] => [p]
  | c :: rest => flat_map (fun e => completions (addFct p e) rest) (candidates c)
  end.

(** Naive enumeration: the full cartesian product of the choice sets, one
    candidate per set, and the plan each selection folds to. *)
Fixpoint cartesianProduct (toAdd : list (list E)) : list (list E) :=
  match toAdd with
  | [] => [[]]
  | c :: rest => flat_map (fun e => map (cons e) (cartesianProduct rest)) c
  end.

Definition allPlans (initial : P) (toAdd : list (list E)) : list P :=
  map (fun picks => fold_left addFct picks initial) (cartesianProduct toAdd).

(** The candidates at index 0 of every choice set, when each has one. *)
Fixpoint heads (toAdd : list (list E)) : option (list E) :=
  match toAdd with
  | [] => Some []
  | c :: rest =>
      match c, heads rest with
      | e :: _, Some es => Some (e :: es)
      | _, _ => None
      end
  end.

(** The way a run that has reached [st] ends there: the stack is empty, or
    the iteration throws. *)
Definition endsWith (st : State) (r : Completion * list Call) : Prop :=
  (step st = None /\ r = (finish st, calls st)) \/
  (exists e, step st = Some (inl e) /\ r = (Threw e, calls st)).

(** States of a run: those the loop passes through, iteration by iteration. *)
Inductive reaches (st : State) : State -> Prop :=
| reaches_here : reaches st st
| reaches_next st' st'' :
    reaches st st' -> step st' = Some (inr st'') -> reaches st st''.

(** The state after [n] complete iterations, when the run gets that far. *)
Fixpoint afterIterations (n : nat) (st : State) : option State :=
  match n with
  | O => Some st
  | S n' =>
      match step st with
      | Some (inr st') => afterIterations n' st'
      | _ => None
      end
  end.

(** Work items without an index sit below (before, in array order) those
    that carry one. *)
Definition indexedOnTop (stack : list Partial) : Prop :=
  exists deferred eager,
    stack = deferred ++ eager /\
    Forall (fun item => index item = None) deferred /\
    Forall (fun item => index item <> None) eager.

(** Every slot of [c] from [i] on holds a candidate. *)
Definition populatedFrom (i : nat) (c : Choices) : Prop :=
  forall j, i <= j -> j < length c -> exists e, nth_error c j = Some (Some e).

(** A work item the loop body processes without failing an assertion: its
    first choice set still has a candidate, the later ones are untouched
    non-empty arrays of candidates, and a preferred index points into a
    fully populated tail of the first set. *)
Definition validItem (item : Partial) : Prop :=
  exists next other,
    remaining item = next :: other /\
    candidates next <> [] /\
    Forall (fun c => exists l, l <> [] /\ c = map (@Some E) l) other /\
    forall i, index item = Some i -> populatedFrom i next.

(** [p] is [initial] with [n] candidates folded in by [addFct]. *)
Definition foldedFrom (initial : P) (n : nat) (p : P) : Prop :=
  exists picks, length picks = n /\ fold_left addFct picks initial = p.

(** Populated slots over all the choice sets of a work item. *)
Definition populatedSlots (item : Partial) : nat :=
  list_sum (map populatedCount (remaining item)).

(** ** Further reference definitions *)






End GenerateAllPlans.

Arguments Threw {P} e.

(** ** The three-piece scenario *)

Module Scenario.

(** A candidate: its tag and its contribution to the cost. *)
Definition Candidate : Type := (string * nat)%type.

(** A plan is the list of candidates merged so far. *)
Definition Plan : Type := list Candidate.

Definition addFct (p : Plan) (e : Candidate) : Plan := p ++ [e].

(** The additive cost model: the sum of the contributions. *)
Definition costFct (p : Plan) : Z := Z.of_nat (list_sum (map snd p)).

Definition a1 : Candidate := ("a1"%string, 1).
Definition a2 : Candidate := ("a2"%string, 5).
Definition b1 : Candidate := ("b1"%string, 2).
Definition b2 : Candidate := ("b2"%string, 1).
Definition c1 : Candidate := ("c1"%string, 0).

Definition initial : Plan := [].

Definition toAdd : list (list Candidate) := [[a1; a2]; [b1; b2]; [c1]].

End Scenario.

(** * Properties *)

Unset Implicit Arguments.

(** ** The array stack *)

Lemma pop_snoc (A : Type) (s : list A) (x : A) : pop (s ++ [x]) = Some (x, s).
Proof.
  induction s as [|y s IH]; simpl.
  - reflexivity.
  - rewrite IH. reflexivity.
Qed.

Lemma pop_Some (A : Type) (s s' : list A) (x : A) :
  pop s = Some (x, s') -> s = s' ++ [x].
Proof.
  revert s' x. induction s as [|y s IH]; simpl; intros s' x H.
  - discriminate.
  - destruct (pop s) as [[t r]|] eqn:Hp.
    + inversion H; subst. rewrite (IH r x eq_refl). reflexivity.
    + inversion H; subst. destruct s as [|z s].
      * reflexivity.
      * simpl in Hp. destruct (pop s) as [[? ?]|]; discriminate.
Qed.

Lemma pop_None (A : Type) (s : list A) : pop s = None -> s = [].
Proof.
  destruct s as [|y s]; simpl.
  - reflexivity.
  - destruct (pop s) as [[? ?]|]; discriminate.
Qed.

Section Components.

Variable E : Type.

Implicit Types c : Choices E.

(** ** The slot selector *)

Lemma firstDefined_Some c : forall k r,
  firstDefined k c = Some r ->
  exists j, r = k + j /\
    (exists e, nth_error c j = Some (Some e)) /\
    (forall j', j' < j -> nth_error c j' = Some None).
Proof.
  induction c as [|[e|] c IH]; simpl; intros k r H.
  - discriminate.
  - inversion H; subst. exists 0. repeat split.
    + lia.
    + exists e. reflexivity.
    + intros j' Hj. lia.
  - destruct (IH _ _ H) as (j & -> & He & Hlt).
    exists (S j). repeat split.
    + lia.
    + exact He.
    + intros [|j'] Hj; simpl.
      * reflexivity.
      * apply Hlt. lia.
Qed.

Lemma firstDefined_None c : forall k,
  firstDefined k c = None ->
  forall j, j < length c -> nth_error c j = Some None.
Proof.
  induction c as [|[e|] c IH]; simpl; intros k H j Hj.
  - lia.
  - discriminate.
  - destruct j as [|j]; simpl.
    + reflexivity.
    + apply (IH _ H). lia.
Qed.

Lemma firstDefined_populated c : forall k j e,
  nth_error c j = Some (Some e) -> firstDefined k c <> None.
Proof.
  intros k j e Hj H.
  assert (Hlen : j < length c) by (apply nth_error_Some; congruence).
  rewrite (firstDefined_None c k H j Hlen) in Hj. discriminate.
Qed.

(** ** The candidate extractor *)

Lemma extractLoop_spec c : forall i idx acc last updated,
  extractLoop i idx c acc = (last, updated) ->
  length updated = length c /\
  (forall j, i + j <> idx -> nth_error updated j = nth_error c j) /\
  (forall j, i + j = idx -> j < length c -> nth_error updated j = Some None) /\
  (last = true <->
   acc = true /\
   forall j, i + j <> idx -> j < length c -> nth_error c j = Some None).
Proof.
  induction c as [|s c IH]; simpl; intros i idx acc last updated H.
  - inversion H; subst. repeat split; intros; try lia; tauto.
  - destruct (Nat.eqb_spec i idx) as [Heq|Hne].
    + destruct (extractLoop (S i) idx c acc) as [l u] eqn:Hl.
      destruct (IH _ _ _ _ _ Hl) as (Hlen & Hsame & Hhole & Hlast).
      inversion H; subst; clear H.
      split; [simpl; lia|]. split; [|split].
      * intros [|j] Hj; [lia|]. simpl. apply Hsame. lia.
      * intros [|j] Hj Hlt; [reflexivity|lia].
      * rewrite Hlast. split.
        -- intros [Hacc Hall]. split; [exact Hacc|].
           intros [|j] Hj Hlt; [lia|]. simpl. apply Hall; lia.
        -- intros [Hacc Hall]. split; [exact Hacc|].
           intros j Hj Hlt. apply (Hall (S j)); lia.
    + destruct (extractLoop (S i) idx c (acc && isUndefined s)) as [l u] eqn:Hl.
      destruct (IH _ _ _ _ _ Hl) as (Hlen & Hsame & Hhole & Hlast).
      inversion H; subst; clear H.
      split; [simpl; lia|]. split; [|split].
      * intros [|j] Hj; [reflexivity|]. simpl. apply Hsame. lia.
      * intros [|j] Hj Hlt; [lia|]. simpl. apply Hhole; lia.
      * rewrite Hlast, andb_true_iff. split.
        -- intros [[Hacc Hs] Hall]. split; [exact Hacc|].
           intros [|j] Hj Hlt; simpl.
           ++ destruct s; [discriminate|reflexivity].
           ++ apply Hall; lia.
        -- intros [Hacc Hall]. split; [split; [exact Hacc|]|].
           ++ assert (Hs : Some s = Some None) by (apply (Hall 0); lia).
              inversion Hs. reflexivity.
           ++ intros j Hj Hlt. apply (Hall (S j)); lia.
Qed.

Lemma extract_slot (i : nat) c e :
  nth_error c i = Some (Some e) ->
  exists x, extract i c = inr x /\
    extracted x = e /\
    length (updatedChoices x) = length c /\
    (forall j, j <> i -> nth_error (updatedChoices x) j = nth_error c j) /\
    nth_error (updatedChoices x) i = Some None /\
    (isLast x = true <->
     forall j, j <> i -> j < length c -> nth_error c j = Some None).
Proof.
  intros He. unfold extract. rewrite He.
  destruct (extractLoop 0 i c true) as [last updated] eqn:Hl.
  destruct (extractLoop_spec c 0 i _ _ _ Hl) as (Hlen & Hsame & Hhole & Hlast).
  eexists. split; [reflexivity|]. simpl. repeat split.
  - exact Hlen.
  - intros j Hj. apply Hsame. simpl. exact Hj.
  - apply Hhole; [reflexivity|]. apply nth_error_Some. congruence.
  - intros Hl' j Hj Hlt. apply Hlast; auto.
  - intros Hall. apply Hlast. split; [reflexivity|].
    intros j Hj Hlt. apply Hall; auto.
Qed.

(** C5: [extract] on a populated slot returns the candidate there, a choice
    set of the same length that agrees with the argument everywhere except
    at the index, which is cleared, and [isLast] is true exactly when every
    other slot was already empty; on an empty slot it fails an assertion. *)
Theorem extract_contract (i : nat) c :
  (forall e, nth_error c i = Some (Some e) ->
     exists x, extract i c = inr x /\
       extracted x = e /\
       length (updatedChoices x) = length c /\
       (forall j, j <> i -> nth_error (updatedChoices x) j = nth_error c j) /\
       nth_error (updatedChoices x) i = Some None /\
       (isLast x = true <->
        forall j, j <> i -> j < length c -> nth_error c j = Some None)) /\
  (nth_error c i = Some None ->
     exists message, extract i c = inl (AssertionError message)).
Proof.
  split.
  - apply extract_slot.
  - intros Hn. unfold extract. rewrite Hn. eexists. reflexivity.
Qed.

Lemma scanFromStart_first c k :
  (exists e, nth_error c k = Some (Some e)) ->
  (forall j, j < k -> nth_error c j = Some None) ->
  scanFromStart c = inr k.
Proof.
  intros [e He] Hbefore. unfold scanFromStart.
  destruct (firstDefined 0 c) as [r|] eqn:Hf.
  - destruct (firstDefined_Some c 0 _ Hf) as (j & -> & [e' He'] & Hlt).
    simpl. f_equal.
    destruct (Nat.lt_trichotomy j k) as [Hjk|[Hjk|Hjk]].
    + rewrite (Hbefore j Hjk) in He'. discriminate.
    + exact Hjk.
    + rewrite (Hlt k Hjk) in He. discriminate.
  - exfalso. exact (firstDefined_populated c 0 k e He Hf).
Qed.

Lemma scanFromStart_empty c :
  (forall j, j < length c -> nth_error c j = Some None) ->
  exists message, scanFromStart c = inl (AssertionError message).
Proof.
  intros Hall. unfold scanFromStart.
  destruct (firstDefined 0 c) as [r|] eqn:Hf.
  - destruct (firstDefined_Some c 0 _ Hf) as (j & _ & [e He] & _).
    assert (Hj : j < length c) by (apply nth_error_Some; congruence).
    rewrite (Hall j Hj) in He. discriminate.
  - eexists. reflexivity.
Qed.

(** C6: without a preference, or with one that is out of range, [pickNext]
    returns the first populated slot counted from 0 and fails an assertion
    when there is none; with a preference in range it returns the preference
    itself, whatever the earlier slots hold, and fails an assertion when that
    slot is empty. *)
Theorem pickNext_contract (index : option nat) c :
  ((index = None \/ exists i, index = Some i /\ length c <= i) ->
     (forall k,
        (exists e, nth_error c k = Some (Some e)) ->
        (forall j, j < k -> nth_error c j = Some None) ->
        pickNext index c = inr k) /\
     ((forall j, j < length c -> nth_error c j = Some None) ->
      exists message, pickNext index c = inl (AssertionError message))) /\
  (forall i, index = Some i -> i < length c ->
     (forall e, nth_error c i = Some (Some e) -> pickNext index c = inr i) /\
     (nth_error c i = Some None ->
      exists message, pickNext index c = inl (AssertionError message))).
Proof.
  split.
  - intros Hscan.
    assert (Heq : pickNext index c = scanFromStart c).
    { destruct Hscan as [->|(i & -> & Hi)]; simpl.
      - reflexivity.
      - destruct (Nat.leb_spec (length c) i); [reflexivity|lia]. }
    rewrite Heq. split.
    + intros k. apply scanFromStart_first.
    + apply scanFromStart_empty.
  - intros i -> Hi. simpl.
    destruct (Nat.leb_spec (length c) i); [lia|]. split.
    + intros e He. rewrite He. reflexivity.
    + intros Hn. rewrite Hn. eexists. reflexivity.
Qed.

(** *** The shape of an extraction *)

Lemma extractLoop_past c : forall i idx acc,
  idx < i -> extractLoop i idx c acc = (acc && forallb (@isUndefined E) c, c).
Proof.
  induction c as [|s c IH]; simpl; intros i idx acc Hlt.
  - rewrite andb_true_r. reflexivity.
  - destruct (Nat.eqb_spec i idx); [lia|].
    rewrite IH by lia. rewrite andb_assoc. reflexivity.
Qed.

Lemma extractLoop_split c : forall i idx acc e,
  i <= idx -> nth_error c (idx - i) = Some (Some e) ->
  exists pre post,
    c = pre ++ Some e :: post /\
    length pre = idx - i /\
    extractLoop i idx c acc
    = (acc && forallb (@isUndefined E) (pre ++ post), pre ++ None :: post).
Proof.
  induction c as [|s c IH]; intros i idx acc e Hle Hnth.
  - destruct (idx - i); discriminate.
  - simpl. destruct (Nat.eqb_spec i idx) as [Heq|Hne].
    + subst idx. rewrite Nat.sub_diag in Hnth. simpl in Hnth.
      inversion Hnth; subst s.
      exists [], c. rewrite extractLoop_past by lia.
      rewrite Nat.sub_diag. auto.
    + replace (idx - i) with (S (idx - S i)) in Hnth by lia. simpl in Hnth.
      destruct (IH (S i) idx (acc && isUndefined s) e ltac:(lia) Hnth)
        as (pre & post & -> & Hlen & ->).
      exists (s :: pre), post. simpl. repeat split.
      * lia.
      * rewrite andb_assoc. reflexivity.
Qed.

Lemma extract_split (k : nat) c x :
  extract k c = inr x ->
  exists pre post,
    c = pre ++ Some (extracted x) :: post /\
    length pre = k /\
    updatedChoices x = pre ++ None :: post /\
    isLast x = forallb (@isUndefined E) (pre ++ post).
Proof.
  unfold extract. intros H.
  destruct (nth_error c k) as [[e|]|] eqn:Hk; try discriminate.
  destruct (extractLoop_split c 0 k true e (Nat.le_0_l k))
    as (pre & post & Hc & Hlen & Hloop).
  { rewrite Nat.sub_0_r. exact Hk. }
  rewrite Hloop in H. inversion H; subst x; simpl.
  exists pre, post. rewrite Nat.sub_0_r in Hlen. auto.
Qed.

Lemma extract_populated (k : nat) c e :
  nth_error c k = Some (Some e) -> exists x, extract k c = inr x /\ extracted x = e.
Proof.
  intros Hk. destruct (extract_slot k c e Hk) as (x & Hx & He & _).
  exists x. auto.
Qed.

Lemma pickNext_populated (index : option nat) c k :
  pickNext index c = inr k -> exists e, nth_error c k = Some (Some e).
Proof.
  assert (Hscan : scanFromStart c = inr k -> exists e, nth_error c k = Some (Some e)).
  { unfold scanFromStart. destruct (firstDefined 0 c) as [r|] eqn:Hf; [|discriminate].
    intros H. inversion H; subst r.
    destruct (firstDefined_Some c 0 _ Hf) as (j & Hj & He & _).
    simpl in Hj. subst j. exact He. }
  unfold pickNext. destruct index as [i|]; [|exact Hscan].
  destruct (length c <=? i); [exact Hscan|].
  destruct (nth_error c i) as [[e|]|] eqn:Hi; try discriminate.
  intros H. inversion H; subst k. exists e. exact Hi.
Qed.

(** *** Counting populated slots *)

Lemma populatedCount_app c c' :
  populatedCount (c ++ c') = populatedCount c + populatedCount c'.
Proof.
  unfold populatedCount. rewrite filter_app, length_app. reflexivity.
Qed.

Lemma populatedCount_undefined c :
  forallb (@isUndefined E) c = true <-> populatedCount c = 0.
Proof.
  unfold populatedCount. induction c as [|[e|] c IH]; simpl.
  - tauto.
  - split; discriminate.
  - exact IH.
Qed.

Lemma candidates_app c c' : candidates (c ++ c') = candidates c ++ candidates c'.
Proof.
  unfold candidates. apply flat_map_app.
Qed.

Lemma candidates_length c : length (candidates c) = populatedCount c.
Proof.
  unfold candidates, populatedCount.
  induction c as [|[e|] c IH]; simpl; auto.
Qed.

Lemma candidates_In c e :
  In e (candidates c) <-> exists k, nth_error c k = Some (Some e).
Proof.
  unfold candidates. induction c as [|s c IH]; simpl.
  - split; [tauto|]. intros [[|k] Hk]; discriminate.
  - rewrite in_app_iff, IH. split.
    + intros [Hs|[k Hk]].
      * destruct s as [e'|]; simpl in Hs; [|tauto].
        destruct Hs as [->|[]]. exists 0. reflexivity.
      * exists (S k). exact Hk.
    + intros [[|k] Hk]; simpl in Hk.
      * inversion Hk; subst s. left. simpl. auto.
      * right. exists k. exact Hk.
Qed.

Lemma candidates_ofArray (l : list E) : candidates (map (@Some E) l) = l.
Proof.
  unfold candidates. induction l as [|e l IH]; simpl; congruence.
Qed.

(** *** The selector and the extractor together *)

(** X1: an index returned by [pickNext] is in range and names a populated
    slot, so [extract] on it never fails its assertion and yields the
    candidate stored there. *)
Theorem pickNext_then_extract (index : option nat) c k :
  pickNext index c = inr k ->
  k < length c /\
  exists x, extract k c = inr x /\ nth_error c k = Some (Some (extracted x)).
Proof.
  intros Hpick. destruct (pickNext_populated index c k Hpick) as [e He].
  split.
  - apply nth_error_Some. congruence.
  - destruct (extract_populated k c e He) as (x & Hx & Hex).
    exists x. split; [exact Hx|]. rewrite Hex. exact He.
Qed.

(** X2: an extraction takes exactly one candidate out of the choice set: the
    candidates before and after it stay, in order, the populated count drops
    by one, and [isLast] is set exactly when no candidate is left. *)
Theorem extract_candidates (k : nat) c x :
  extract k c = inr x ->
  exists before after,
    candidates c = before ++ extracted x :: after /\
    candidates (updatedChoices x) = before ++ after /\
    populatedCount c = S (populatedCount (updatedChoices x)) /\
    (isLast x = true <-> candidates (updatedChoices x) = []).
Proof.
  intros H. destruct (extract_split k c x H) as (pre & post & -> & _ & -> & ->).
  exists (candidates pre), (candidates post).
  rewrite !candidates_app. split; [reflexivity|]. split; [reflexivity|]. split.
  - rewrite !populatedCount_app. unfold populatedCount. simpl. lia.
  - rewrite populatedCount_undefined, <- candidates_length, candidates_app.
    change (candidates (None :: post)) with (candidates post).
    apply length_zero_iff_nil.
Qed.

End Components.

Lemma pickNext_contract_witness :
  pickNext None [None; Some 5] = inr 1 /\
  pickNext (Some 4) [None; Some 5] = inr 1 /\
  (exists message, pickNext (Some 4) [@None nat; None] = inl (AssertionError message)) /\
  pickNext (Some 1) [Some 4; Some 5] = inr 1 /\
  (exists message, pickNext (Some 0) [None; Some 5] = inl (AssertionError message)).
Proof.
  split; [|split; [|split; [|split]]].
  - destruct (pickNext_contract nat None [None; Some 5]) as [Hscan _].
    apply Hscan.
    + left. reflexivity.
    + exists 5. reflexivity.
    + intros [|j] Hj; [reflexivity|lia].
  - destruct (pickNext_contract nat (Some 4) [None; Some 5]) as [Hscan _].
    apply Hscan.
    + right. exists 4. split; [reflexivity|simpl; lia].
    + exists 5. reflexivity.
    + intros [|j] Hj; [reflexivity|lia].
  - destruct (pickNext_contract nat (Some 4) [@None nat; None]) as [Hscan _].
    apply Hscan.
    + right. exists 4. split; [reflexivity|simpl; lia].
    + intros [|[|j]] Hj; simpl in *; try reflexivity; lia.
  - destruct (pickNext_contract nat (Some 1) [Some 4; Some 5]) as [_ Hpref].
    apply (proj1 (Hpref 1 eq_refl ltac:(simpl; lia)) 5). reflexivity.
  - destruct (pickNext_contract nat (Some 0) [None; Some 5]) as [_ Hpref].
    apply (proj2 (Hpref 0 eq_refl ltac:(simpl; lia))). reflexivity.
Defined.

Lemma extract_contract_witness :
  (exists x, extract 1 [Some 7; Some 8; None] = inr x /\
     extracted x = 8 /\
     length (updatedChoices x) = 3 /\
     (forall j, j <> 1 ->
        nth_error (updatedChoices x) j = nth_error [Some 7; Some 8; None] j) /\
     nth_error (updatedChoices x) 1 = Some None /\
     (isLast x = true <->
      forall j, j <> 1 -> j < 3 -> nth_error [Some 7; Some 8; None] j = Some None)) /\
  (exists message, extract 2 [Some 7; Some 8; None] = inl (AssertionError message)).
Proof.
  split.
  - exact (proj1 (extract_contract nat 1 [Some 7; Some 8; None]) 8 eq_refl).
  - exact (proj2 (extract_contract nat 2 [Some 7; Some 8; None]) eq_refl).
Defined.

(** ** The search driver *)

Section Driver.

Variables P E : Type.
Variable addFct : P -> E -> P.
Variable costFct : P -> Z.

Implicit Types (item : Partial P E) (st : State P E) (s : list (Partial P E)).

Local Abbreviation body := (body addFct costFct).
Local Abbreviation step := (step addFct costFct).
Local Abbreviation loop := (loop addFct costFct).
Local Abbreviation reaches := (reaches addFct costFct).
Local Abbreviation endsWith := (endsWith addFct costFct).

(** *** One iteration, by cases *)

Lemma body_inr item s m cs st' :
  body item s m cs = inr st' ->
  exists next other k x,
    remaining item = next :: other /\
    pickNext (index item) next = inr k /\
    extract k next = inr x /\
    let stack1 :=
      if isLast x then s else insertInStack (sibling item next other x) s in
    let newPartial := addFct (partial item) (extracted x) in
    (other = [] /\
     st' = {| stack := stack1;
              min := match m with
                     | None => Some (mkMin newPartial (costFct newPartial))
                     | Some m0 =>
                         if (costFct newPartial <? cost m0)%Z
                         then Some (mkMin newPartial (costFct newPartial))
                         else m
                     end;
              calls := cs ++ [mkCall newPartial (costFct newPartial)
                                (option_map (@cost P) m)] |}) \/
    (other <> [] /\
     (exists m0, m = Some m0 /\ (cost m0 <= costFct newPartial)%Z) /\
     st' = {| stack := stack1; min := m; calls := cs |}) \/
    (other <> [] /\
     (forall m0, m = Some m0 -> (costFct newPartial < cost m0)%Z) /\
     st' = {| stack := insertInStack (continuation item other newPartial) stack1;
              min := m; calls := cs |}).
Proof.
  unfold body. destruct (remaining item) as [|next other]; [discriminate|].
  destruct (pickNext (index item) next) as [e|k] eqn:Hpick; [discriminate|].
  simpl. destruct (extract k next) as [e|x] eqn:Hext; [discriminate|].
  simpl. intros H. exists next, other, k, x.
  split; [reflexivity|]. split; [exact Hpick|]. split; [exact Hext|].
  destruct other as [|c other]; simpl in H.
  - left. split; [reflexivity|]. inversion H; subst st'; clear H.
    destruct m as [m0|]; reflexivity.
  - right. destruct m as [m0|].
    + destruct (Z.geb_spec (costFct (addFct (partial item) (extracted x))) (cost m0))
        as [Hge|Hlt]; inversion H; subst st'; clear H.
      * left. split; [discriminate|]. split; [|reflexivity].
        exists m0. split; [reflexivity|lia].
      * right. split; [discriminate|]. split; [|reflexivity].
        intros m1 Hm1. inversion Hm1; subst m1. exact Hlt.
    + inversion H; subst st'; clear H.
      right. split; [discriminate|]. split; [|reflexivity].
      intros m0 Hm0. discriminate.
Qed.

Lemma step_inr st st' :
  step st = Some (inr st') ->
  exists item s, stack st = s ++ [item] /\ body item s (min st) (calls st) = inr st'.
Proof.
  unfold step. destruct (pop (stack st)) as [[item s]|] eqn:Hpop; [|discriminate].
  intros H. inversion H as [Hb]. exists item, s. split; [|reflexivity].
  apply pop_Some. exact Hpop.
Qed.

Lemma step_inl st e :
  step st = Some (inl e) ->
  exists item s, stack st = s ++ [item] /\ body item s (min st) (calls st) = inl e.
Proof.
  unfold step. destruct (pop (stack st)) as [[item s]|] eqn:Hpop; [|discriminate].
  intros H. inversion H as [Hb]. exists item, s. split; [|reflexivity].
  apply pop_Some. exact Hpop.
Qed.

Lemma step_None st : step st = None -> stack st = [].
Proof.
  unfold step. destruct (pop (stack st)) as [[item s]|] eqn:Hpop; [discriminate|].
  intros _. apply pop_None. exact Hpop.
Qed.

Lemma step_snoc s item m cs :
  step (mkState (s ++ [item]) m cs) = Some (body item s m cs).
Proof.
  unfold step. simpl. rewrite pop_snoc. reflexivity.
Qed.

Lemma In_insertInStack item item' s :
  In item' (insertInStack item s) <-> item' = item \/ In item' s.
Proof.
  unfold insertInStack. destruct (index item); simpl.
  - rewrite in_app_iff. simpl. intuition.
  - intuition.
Qed.

(** *** Runs *)

Lemma reaches_first st st1 st' :
  step st = Some (inr st1) -> reaches st1 st' -> reaches st st'.
Proof.
  intros Hstep Hr. induction Hr as [|st2 st3 Hr IH Hs].
  - eapply reaches_next; [apply reaches_here|exact Hstep].
  - eapply reaches_next; [exact IH|exact Hs].
Qed.

Lemma afterIterations_reaches n : forall st st',
  afterIterations addFct costFct n st = Some st' -> reaches st st'.
Proof.
  induction n as [|n IH]; simpl; intros st st' H.
  - inversion H. apply reaches_here.
  - destruct (step st) as [[e|st1]|] eqn:Hstep; try discriminate.
    eapply reaches_first; [exact Hstep|]. apply IH. exact H.
Qed.

Lemma reaches_invariant (Inv : State P E -> Prop) st0 :
  Inv st0 ->
  (forall st st', Inv st -> step st = Some (inr st') -> Inv st') ->
  forall st, reaches st0 st -> Inv st.
Proof.
  intros H0 Hstep st Hr. induction Hr as [|st1 st2 Hr IH Hs].
  - exact H0.
  - exact (Hstep _ _ IH Hs).
Qed.

Lemma loop_endsWith fuel : forall st r,
  loop fuel st = Some r -> exists st', reaches st st' /\ endsWith st' r.
Proof.
  induction fuel as [|fuel IH]; intros st r; simpl;
    destruct (step st) as [[e|st1]|] eqn:Hstep; intros H;
    try discriminate.
  - inversion H; subst r. exists st. split; [apply reaches_here|].
    right. exists e. auto.
  - inversion H; subst r. exists st. split; [apply reaches_here|].
    left. auto.
  - inversion H; subst r. exists st. split; [apply reaches_here|].
    right. exists e. auto.
  - destruct (IH _ _ H) as (st' & Hr & Hend).
    exists st'. split; [|exact Hend].
    eapply reaches_first; eassumption.
  - inversion H; subst r. exists st. split; [apply reaches_here|].
    left. auto.
Qed.

(** *** Termination: every iteration lowers [stackBound] *)

Lemma stackBound_app s s' :
  stackBound (s ++ s') = stackBound s + stackBound s'.
Proof.
  unfold stackBound. rewrite map_app, list_sum_app. reflexivity.
Qed.

Lemma stackBound_insertInStack item s :
  stackBound (insertInStack item s) = searchBound (remaining item) + stackBound s.
Proof.
  unfold insertInStack. destruct (index item).
  - rewrite stackBound_app. unfold stackBound. simpl. lia.
  - reflexivity.
Qed.

Lemma extract_populatedCount k (c : Choices E) x :
  extract k c = inr x -> populatedCount c = S (populatedCount (updatedChoices x)).
Proof.
  intros H. destruct (extract_split E k c x H) as (pre & post & -> & _ & -> & _).
  rewrite !populatedCount_app. unfold populatedCount. simpl. lia.
Qed.

Lemma extract_isLast k (c : Choices E) x :
  extract k c = inr x ->
  (isLast x = true <-> populatedCount (updatedChoices x) = 0).
Proof.
  intros H. destruct (extract_split E k c x H) as (pre & post & -> & _ & -> & ->).
  rewrite populatedCount_undefined, !populatedCount_app.
  unfold populatedCount. simpl. reflexivity.
Qed.

Lemma step_decreases st st' :
  step st = Some (inr st') -> stackBound (stack st') < stackBound (stack st).
Proof.
  intros Hstep. destruct (step_inr _ _ Hstep) as (item & s & Hstack & Hbody).
  destruct (body_inr _ _ _ _ _ Hbody) as (next & other & k & x & Hrem & _ & Hext & Hcases).
  rewrite Hstack, stackBound_app. unfold stackBound at 3. simpl.
  rewrite Hrem. simpl. rewrite (extract_populatedCount _ _ _ Hext).
  assert (Hsib : stackBound
            (if isLast x then s else insertInStack (sibling item next other x) s)
          <= stackBound s + populatedCount (updatedChoices x) * S (searchBound other)).
  { destruct (isLast x); [lia|]. rewrite stackBound_insertInStack. simpl. lia. }
  simpl in Hcases. destruct Hcases as [(_ & ->)|[(_ & _ & ->)|(_ & _ & ->)]]; simpl.
  - lia.
  - lia.
  - rewrite stackBound_insertInStack. simpl. lia.
Qed.

Lemma loop_terminates fuel : forall st,
  stackBound (stack st) <= fuel -> exists r, loop fuel st = Some r.
Proof.
  induction fuel as [|fuel IH]; intros st Hb; simpl;
    destruct (step st) as [[e|st1]|] eqn:Hstep; eauto.
  - apply step_decreases in Hstep. lia.
  - apply IH. apply step_decreases in Hstep. lia.
Qed.

Lemma loop_more_fuel fuel : forall fuel' st r,
  loop fuel st = Some r -> fuel <= fuel' -> loop fuel' st = Some r.
Proof.
  induction fuel as [|fuel IH]; intros fuel' st r; simpl;
    destruct (step st) as [[e|st1]|] eqn:Hstep; intros H Hle; try discriminate;
    try (destruct fuel'; simpl; rewrite Hstep; exact H).
  destruct fuel' as [|fuel']; [lia|]. simpl. rewrite Hstep.
  apply IH; [exact H|lia].
Qed.

(** The result does not depend on the fuel, once there is enough of it. *)
Lemma generateAllPlansAndFindBest_fuel (initial : P) (toAdd : list (Choices E))
  (fuel : nat) :
  searchBound toAdd <= fuel ->
  loop fuel (initialState initial toAdd)
  = generateAllPlansAndFindBest addFct costFct initial toAdd.
Proof.
  intros Hle. unfold generateAllPlansAndFindBest.
  destruct (loop_terminates (searchBound toAdd) (initialState initial toAdd))
    as [r Hr].
  { unfold stackBound. simpl. lia. }
  rewrite Hr. exact (loop_more_fuel _ _ _ _ Hr Hle).
Qed.

(** The call always ends, with a result or with an exception, and it ends in
    a state of the run. *)
Lemma generateAllPlansAndFindBest_ends (initial : P) (toAdd : list (Choices E)) :
  exists r st,
    generateAllPlansAndFindBest addFct costFct initial toAdd = Some r /\
    reaches (initialState initial toAdd) st /\
    endsWith st r.
Proof.
  unfold generateAllPlansAndFindBest.
  destruct (loop_terminates (searchBound toAdd) (initialState initial toAdd))
    as [r Hr].
  { unfold stackBound. simpl. lia. }
  destruct (loop_endsWith _ _ _ Hr) as (st & Hreach & Hend).
  exists r, st. auto.
Qed.

(** *** Stack order *)

Lemma indexedOnTop_insert item s :
  indexedOnTop s -> indexedOnTop (insertInStack item s).
Proof.
  intros (deferred & eager & -> & Hd & He). unfold insertInStack.
  destruct (index item) as [i|] eqn:Hi.
  - exists deferred, (eager ++ [item]). rewrite app_assoc. repeat split.
    + exact Hd.
    + apply Forall_app. split; [exact He|]. constructor; [congruence|constructor].
  - exists (item :: deferred), eager. repeat split.
    + constructor; assumption.
    + exact He.
Qed.

Lemma indexedOnTop_pop item s :
  indexedOnTop (s ++ [item]) -> indexedOnTop s.
Proof.
  intros (deferred & eager & Heq & Hd & He).
  destruct eager as [|y eager _] using rev_ind.
  - rewrite app_nil_r in Heq. subst deferred.
    apply Forall_app in Hd. exists s, []. rewrite app_nil_r. tauto.
  - rewrite app_assoc in Heq. apply app_inj_tail in Heq. destruct Heq as [-> _].
    apply Forall_app in He. exists deferred, eager. tauto.
Qed.

Lemma indexedOnTop_top item s :
  indexedOnTop (s ++ [item]) -> index item = None ->
  forall item', In item' s -> index item' = None.
Proof.
  intros (deferred & eager & Heq & Hd & He) Hi.
  destruct eager as [|y eager _] using rev_ind.
  - rewrite app_nil_r in Heq. subst deferred.
    apply Forall_app in Hd. destruct Hd as [Hd _].
    rewrite Forall_forall in Hd. exact Hd.
  - rewrite app_assoc in Heq. apply app_inj_tail in Heq. destruct Heq as [_ <-].
    apply Forall_app in He. destruct He as [_ He].
    inversion He; subst. contradiction.
Qed.

Lemma indexedOnTop_step st st' :
  indexedOnTop (stack st) -> step st = Some (inr st') -> indexedOnTop (stack st').
Proof.
  intros Hinv Hstep. destruct (step_inr _ _ Hstep) as (item & s & Hstack & Hbody).
  rewrite Hstack in Hinv. apply indexedOnTop_pop in Hinv.
  destruct (body_inr _ _ _ _ _ Hbody) as (next & other & k & x & _ & _ & _ & Hcases).
  assert (Hsib : indexedOnTop
            (if isLast x then s else insertInStack (sibling item next other x) s)).
  { destruct (isLast x); [exact Hinv|]. apply indexedOnTop_insert. exact Hinv. }
  simpl in Hcases. destruct Hcases as [(_ & ->)|[(_ & _ & ->)|(_ & _ & ->)]]; simpl.
  - exact Hsib.
  - exact Hsib.
  - apply indexedOnTop_insert. exact Hsib.
Qed.

Lemma indexedOnTop_reaches (initial : P) (toAdd : list (Choices E)) st :
  reaches (initialState initial toAdd) st -> indexedOnTop (stack st).
Proof.
  revert st. apply reaches_invariant.
  - exists [], [mkPartial initial toAdd true (Some 0)]. repeat split.
    + constructor.
    + constructor; [discriminate|constructor].
  - intros st st'. apply indexedOnTop_step.
Qed.

(** Work items without an index only produce work items without an index. *)
Lemma unindexed_reaches st0 :
  (forall item, In item (stack st0) -> index item = None) ->
  forall st, reaches st0 st ->
    forall item, In item (stack st) -> index item = None.
Proof.
  intros H0.
  apply (reaches_invariant
           (fun st => forall item, In item (stack st) -> index item = None)).
  - exact H0.
  - intros st st' Hinv Hstep.
    destruct (step_inr _ _ Hstep) as (item & s & Hstack & Hbody).
    destruct (body_inr _ _ _ _ _ Hbody) as (next & other & k & x & _ & _ & _ & Hcases).
    assert (Hitem : index item = None).
    { apply Hinv. rewrite Hstack. apply in_or_app. simpl. auto. }
    assert (Hs : forall item', In item' s -> index item' = None).
    { intros item' Hin. apply Hinv. rewrite Hstack. apply in_or_app. auto. }
    assert (Hsib : forall item',
              In item' (if isLast x then s
                        else insertInStack (sibling item next other x) s) ->
              index item' = None).
    { destruct (isLast x); [exact Hs|].
      intros item' Hin. apply In_insertInStack in Hin. destruct Hin as [->|Hin].
      - simpl. rewrite Hitem. reflexivity.
      - apply Hs. exact Hin. }
    simpl in Hcases. destruct Hcases as [(_ & ->)|[(_ & _ & ->)|(_ & _ & ->)]]; simpl.
    + exact Hsib.
    + exact Hsib.
    + intros item' Hin. apply In_insertInStack in Hin. destruct Hin as [->|Hin].
      * exact Hitem.
      * apply Hsib. exact Hin.
Qed.

(** C7: [insertInStack] appends an item that carries an index at the end the
    loop pops from and puts an item without one at the other end, behind
    everything already there; so in every state of a run, when the item about
    to be popped has no index, no item left on the stack has one, and none
    appears on the stack for the rest of the run. *)
Theorem insertInStack_order (initial : P) (toAdd : list (Choices E)) :
  (forall elt s, index elt <> None ->
     insertInStack elt s = s ++ [elt] /\ pop (insertInStack elt s) = Some (elt, s)) /\
  (forall elt s, index elt = None ->
     insertInStack elt s = elt :: s /\
     forall top s', pop s = Some (top, s') ->
       pop (insertInStack elt s) = Some (top, elt :: s')) /\
  (forall st, reaches (initialState initial toAdd) st ->
     forall item rest, pop (stack st) = Some (item, rest) ->
       index item = None ->
       forall item', In item' rest -> index item' = None) /\
  (forall st, reaches (initialState initial toAdd) st ->
     forall item rest, pop (stack st) = Some (item, rest) ->
       index item = None ->
       forall st', reaches st st' ->
         forall item', In item' (stack st') -> index item' = None).
Proof.
  split; [|split; [|split]].
  - intros elt s Hi. unfold insertInStack.
    destruct (index elt); [|contradiction]. split; [reflexivity|apply pop_snoc].
  - intros elt s Hi. unfold insertInStack. rewrite Hi. split; [reflexivity|].
    intros top s' Hpop. simpl. rewrite Hpop. reflexivity.
  - intros st Hreach item rest Hpop Hi.
    apply pop_Some in Hpop.
    pose proof (indexedOnTop_reaches initial toAdd st Hreach) as Hinv.
    rewrite Hpop in Hinv. exact (indexedOnTop_top _ _ Hinv Hi).
  - intros st Hreach item rest Hpop Hi st' Hreach'.
    apply pop_Some in Hpop.
    pose proof (indexedOnTop_reaches initial toAdd st Hreach) as Hinv.
    rewrite Hpop in Hinv.
    apply (unindexed_reaches st); [|exact Hreach'].
    intros item' Hin. rewrite Hpop in Hin. apply in_app_or in Hin.
    destruct Hin as [Hin|[<-|[]]].
    + exact (indexedOnTop_top _ _ Hinv Hi item' Hin).
    + exact Hi.
Qed.

(** *** The best-result state *)

Lemma min_absent_iff_no_call (initial : P) (toAdd : list (Choices E)) st :
  reaches (initialState initial toAdd) st -> (min st = None <-> calls st = []).
Proof.
  revert st. apply reaches_invariant.
  - simpl. tauto.
  - intros st st' Hinv Hstep.
    destruct (step_inr _ _ Hstep) as (item & s & _ & Hbody).
    destruct (body_inr _ _ _ _ _ Hbody) as (next & other & k & x & _ & _ & _ & Hcases).
    simpl in Hcases. destruct Hcases as [(_ & ->)|[(_ & _ & ->)|(_ & _ & ->)]]; simpl.
    + split.
      * destruct (min st) as [m0|]; [|discriminate].
        destruct (_ <? _)%Z; discriminate.
      * intros Hc. apply app_eq_nil in Hc. destruct Hc; discriminate.
    + exact Hinv.
    + exact Hinv.
Qed.

(** *** Pieces decided and pieces left *)

(** C3, as the code has it: every work item of a run holds a plan made of
    the initial plan and some number of folded candidates, and that number
    plus the number of choice sets still in its list is the number of
    pieces. *)
Theorem pieces_accounted (initial : P) (toAdd : list (Choices E)) st :
  reaches (initialState initial toAdd) st ->
  forall item, In item (stack st) ->
    exists n, foldedFrom addFct initial n (partial item) /\
              n + length (remaining item) = length toAdd.
Proof.
  revert st.
  apply (reaches_invariant
           (fun st => forall item, In item (stack st) ->
              exists n, foldedFrom addFct initial n (partial item) /\
                        n + length (remaining item) = length toAdd)).
  - simpl. intros item [<-|[]]. exists 0. split; [|reflexivity].
    exists []. auto.
  - intros st st' Hinv Hstep.
    destruct (step_inr _ _ Hstep) as (item & s & Hstack & Hbody).
    destruct (body_inr _ _ _ _ _ Hbody) as (next & other & k & x & Hrem & _ & Hext & Hcases).
    assert (Hs : forall item', In item' s ->
              exists n, foldedFrom addFct initial n (partial item') /\
                        n + length (remaining item') = length toAdd).
    { intros item' Hin. apply Hinv. rewrite Hstack. apply in_or_app. auto. }
    destruct (Hinv item) as (n & (picks & Hlen & Hfold) & Hn).
    { rewrite Hstack. apply in_or_app. simpl. auto. }
    rewrite Hrem in Hn. simpl in Hn.
    assert (Hlenx : length (updatedChoices x :: other) = S (length other))
      by reflexivity.
    assert (Hsib : forall item',
              In item' (if isLast x then s
                        else insertInStack (sibling item next other x) s) ->
              exists n, foldedFrom addFct initial n (partial item') /\
                        n + length (remaining item') = length toAdd).
    { destruct (isLast x); [exact Hs|].
      intros item' Hin. apply In_insertInStack in Hin. destruct Hin as [->|Hin].
      - exists n. simpl. split; [exists picks; auto|lia].
      - apply Hs. exact Hin. }
    simpl in Hcases. destruct Hcases as [(_ & ->)|[(_ & _ & ->)|(_ & _ & ->)]]; simpl.
    + exact Hsib.
    + exact Hsib.
    + intros item' Hin. apply In_insertInStack in Hin. destruct Hin as [->|Hin].
      * exists (S n). simpl. split; [|lia].
        exists (picks ++ [extracted x]). rewrite length_app, fold_left_app.
        simpl. rewrite Hfold. split; [lia|reflexivity].
      * apply Hsib. exact Hin.
Qed.

(** *** Work items that cannot fail *)

Lemma pickNext_valid (idx : option nat) (next : Choices E) :
  candidates next <> [] ->
  (forall i, idx = Some i -> populatedFrom i next) ->
  exists k, pickNext idx next = inr k.
Proof.
  intros Hcand Hidx.
  assert (Hscan : exists k, scanFromStart next = inr k).
  { unfold scanFromStart. destruct (firstDefined 0 next) as [r|] eqn:Hf; [eauto|].
    exfalso. destruct (candidates next) as [|e l] eqn:Hc; [contradiction|].
    destruct (proj1 (candidates_In E next e)) as [k Hk].
    { rewrite Hc. simpl. auto. }
    exact (firstDefined_populated E next 0 k e Hk Hf). }
  unfold pickNext. destruct idx as [i|]; [|exact Hscan].
  destruct (Nat.leb_spec (length next) i) as [Hle|Hlt]; [exact Hscan|].
  destruct (Hidx i eq_refl i (Nat.le_refl i) Hlt) as [e He].
  rewrite He. eauto.
Qed.

Lemma validItem_body item s m cs :
  validItem item -> exists st', body item s m cs = inr st'.
Proof.
  intros (next & other & Hrem & Hcand & _ & Hidx).
  unfold body. rewrite Hrem.
  destruct (pickNext_valid _ _ Hcand Hidx) as [k Hk]. rewrite Hk. simpl.
  destruct (pickNext_populated E _ _ _ Hk) as [e He].
  destruct (extract_populated E _ _ _ He) as (x & Hx & _). rewrite Hx. simpl.
  destruct (length other =? 0); [eauto|].
  destruct m as [m0|]; [|eauto].
  destruct (_ >=? _)%Z; eauto.
Qed.

Lemma validItem_sibling item next other k x :
  validItem item ->
  remaining item = next :: other ->
  pickNext (index item) next = inr k ->
  extract k next = inr x ->
  isLast x = false ->
  validItem (sibling item next other x).
Proof.
  intros (next' & other' & Hrem' & _ & Hother & Hidx) Hrem Hpick Hext Hlast.
  rewrite Hrem in Hrem'. inversion Hrem'; subst next' other'; clear Hrem'.
  exists (updatedChoices x), other. split; [reflexivity|]. split; [|split].
  - intros Hc.
    assert (Hz : populatedCount (updatedChoices x) = 0)
      by (rewrite <- candidates_length, Hc; reflexivity).
    apply (extract_isLast _ _ _ Hext) in Hz. congruence.
  - exact Hother.
  - simpl. unfold siblingIndex. destruct (index item) as [i|] eqn:Hi; [|discriminate].
    destruct (isRoot item); simpl; [|discriminate].
    destruct (Z.ltb_spec (Z.of_nat i) (Z.of_nat (length next) - 1)) as [Hlt|];
      [|discriminate].
    intros i' Hi'. inversion Hi'; subst i'; clear Hi'.
    assert (Hk : k = i).
    { simpl in Hpick. destruct (Nat.leb_spec (length next) i); [lia|].
      destruct (nth_error next i) as [[e|]|]; inversion Hpick. reflexivity. }
    subst k.
    destruct (pickNext_populated E _ _ _ Hpick) as [e He].
    destruct (extract_slot E i next e He) as (x' & Hx' & _ & Hlen & Hsame & _).
    rewrite Hext in Hx'. inversion Hx'; subst x'; clear Hx'.
    intros j Hj Hjlen. rewrite Hlen in Hjlen.
    rewrite Hsame by lia. apply (Hidx i eq_refl); lia.
Qed.

Lemma validItem_continuation item next other p :
  validItem item ->
  remaining item = next :: other ->
  other <> [] ->
  validItem (continuation item other p).
Proof.
  intros (next' & other' & Hrem' & _ & Hother & _) Hrem Hne.
  rewrite Hrem in Hrem'. inversion Hrem'; subst next' other'; clear Hrem'.
  destruct other as [|c other]; [contradiction|].
  inversion Hother as [|c' other' (l & Hl & ->) Hrest]; subst.
  exists (map (@Some E) l), other. split; [reflexivity|]. split; [|split].
  - rewrite candidates_ofArray. exact Hl.
  - exact Hrest.
  - intros i _ j _ Hj. rewrite length_map in Hj.
    rewrite nth_error_map.
    destruct (nth_error l j) as [e|] eqn:He.
    + exists e. reflexivity.
    + apply nth_error_None in He. lia.
Qed.

Lemma validItem_step st st' :
  Forall (@validItem P E) (stack st) -> step st = Some (inr st') ->
  Forall (@validItem P E) (stack st').
Proof.
  intros Hinv Hstep. destruct (step_inr _ _ Hstep) as (item & s & Hstack & Hbody).
  rewrite Hstack in Hinv. apply Forall_app in Hinv. destruct Hinv as [Hs Hitem].
  inversion Hitem as [|? ? Hvalid _]; subst.
  destruct (body_inr _ _ _ _ _ Hbody)
    as (next & other & k & x & Hrem & Hpick & Hext & Hcases).
  rewrite Forall_forall in Hs.
  assert (Hsib : forall item',
            In item' (if isLast x then s
                      else insertInStack (sibling item next other x) s) ->
            validItem item').
  { destruct (isLast x) eqn:Hlast; [exact Hs|].
    intros item' Hin. apply In_insertInStack in Hin. destruct Hin as [->|Hin].
    - eapply validItem_sibling; eassumption.
    - apply Hs. exact Hin. }
  apply Forall_forall.
  simpl in Hcases. destruct Hcases as [(_ & ->)|[(_ & _ & ->)|(Hne & _ & ->)]]; simpl.
  - exact Hsib.
  - exact Hsib.
  - intros item' Hin. apply In_insertInStack in Hin. destruct Hin as [->|Hin].
    + eapply validItem_continuation; eassumption.
    + apply Hsib. exact Hin.
Qed.

Lemma validItem_initial (initial : P) (toAdd : list (list E)) :
  toAdd <> [] -> (forall c, In c toAdd -> c <> []) ->
  validItem (mkPartial initial (ofArrays toAdd) true (Some 0)).
Proof.
  intros Hne Hsets. destruct toAdd as [|c toAdd]; [contradiction|].
  exists (map (@Some E) c), (ofArrays toAdd). split; [reflexivity|]. split; [|split].
  - rewrite candidates_ofArray. apply Hsets. simpl. auto.
  - unfold ofArrays. apply Forall_forall. intros c' Hin.
    apply in_map_iff in Hin. destruct Hin as (l & <- & Hl).
    exists l. split; [|reflexivity]. apply Hsets. simpl. auto.
  - simpl. intros i _ j _ Hj. rewrite length_map in Hj. rewrite nth_error_map.
    destruct (nth_error c j) as [e|] eqn:He.
    + exists e. reflexivity.
    + apply nth_error_None in He. lia.
Qed.

Lemma validItem_reaches (initial : P) (toAdd : list (list E)) st :
  toAdd <> [] -> (forall c, In c toAdd -> c <> []) ->
  reaches (initialState initial (ofArrays toAdd)) st ->
  Forall (@validItem P E) (stack st) /\ (stack st = [] -> min st <> None).
Proof.
  intros Hne Hsets. revert st. apply reaches_invariant.
  - simpl. split; [|discriminate].
    constructor; [|constructor]. apply validItem_initial; assumption.
  - intros st st' [Hvalid Hmin] Hstep. split; [eapply validItem_step; eassumption|].
    destruct (step_inr _ _ Hstep) as (item & s & Hstack & Hbody).
    destruct (body_inr _ _ _ _ _ Hbody) as (next & other & k & x & _ & _ & _ & Hcases).
    simpl in Hcases.
    destruct Hcases as [(_ & ->)|[(_ & (m0 & Hm0 & _) & ->)|(_ & _ & ->)]]; simpl.
    + intros _. destruct (min st) as [m0|]; [|discriminate].
      destruct (_ <? _)%Z; discriminate.
    + intros _. rewrite Hm0. discriminate.
    + unfold insertInStack. destruct (index _); intros Hnil.
      * apply app_eq_nil in Hnil. destruct Hnil; discriminate.
      * discriminate.
Qed.

(** On a well-formed argument the run ends with an empty stack and a best
    result. *)
Lemma run_returns (initial : P) (toAdd : list (list E)) :
  toAdd <> [] -> (forall c, In c toAdd -> c <> []) ->
  exists st m,
    generateAllPlansAndFindBest addFct costFct initial (ofArrays toAdd)
    = Some (Returned m, calls st) /\
    reaches (initialState initial (ofArrays toAdd)) st /\
    stack st = [] /\ min st = Some m.
Proof.
  intros Hne Hsets.
  destruct (generateAllPlansAndFindBest_ends initial (ofArrays toAdd))
    as (r & st & Hrun & Hreach & Hend).
  destruct (validItem_reaches initial toAdd st Hne Hsets Hreach) as [Hvalid Hmin].
  rewrite Hrun. destruct Hend as [(Hstep & ->)|(e & Hstep & ->)].
  - apply step_None in Hstep. specialize (Hmin Hstep). unfold finish.
    destruct (min st) as [m|] eqn:Hm; [|contradiction].
    exists st, m. auto.
  - exfalso. destruct (step_inl _ _ Hstep) as (item & s & Hstack & Hbody).
    rewrite Hstack in Hvalid.
    apply Forall_app in Hvalid. destruct Hvalid as [_ Hitem].
    inversion Hitem as [|? ? Hv _]; subst.
    destruct (validItem_body item s (min st) (calls st) Hv) as [st' Hst'].
    rewrite Hst' in Hbody. discriminate.
Qed.

(** C9, as the code has it: on a non-empty choice list of non-empty arrays
    of candidates the loop empties the stack within [searchBound] iterations
    and the call returns a best plan. *)
Theorem generateAllPlansAndFindBest_returns (initial : P) (toAdd : list (list E)) :
  toAdd <> [] -> (forall c, In c toAdd -> c <> []) ->
  exists m observed,
    generateAllPlansAndFindBest addFct costFct initial (ofArrays toAdd)
    = Some (Returned m, observed).
Proof.
  intros Hne Hsets.
  destruct (run_returns initial toAdd Hne Hsets) as (st & m & Hrun & _).
  exists m, (calls st). exact Hrun.
Qed.

(** *** Optimality *)

Lemma in_flat_map_insert (A B : Type) (f : A -> list B) (l l' : list A) a b :
  In b (flat_map f (l ++ a :: l')) <-> In b (f a) \/ In b (flat_map f (l ++ l')).
Proof.
  rewrite !flat_map_app. simpl. rewrite !in_app_iff. tauto.
Qed.

Lemma completions_extract k (next : Choices E) x p other q :
  extract k next = inr x ->
  (In q (completions addFct p (next :: other)) <->
   In q (completions addFct (addFct p (extracted x)) other) \/
   In q (completions addFct p (updatedChoices x :: other))).
Proof.
  intros Hext.
  destruct (extract_split E k next x Hext) as (pre & post & -> & _ & -> & _).
  simpl. rewrite !candidates_app.
  change (candidates (Some (extracted x) :: post))
    with (extracted x :: candidates post).
  change (candidates (None :: post)) with (candidates post).
  apply in_flat_map_insert.
Qed.

Lemma completions_isLast k (next : Choices E) x p other q :
  extract k next = inr x -> isLast x = true ->
  ~ In q (completions addFct p (updatedChoices x :: other)).
Proof.
  intros Hext Hlast. apply (extract_isLast _ _ _ Hext) in Hlast.
  rewrite <- candidates_length in Hlast. simpl.
  destruct (candidates (updatedChoices x)); [simpl; tauto|discriminate].
Qed.

Lemma completions_cost (rem : list (Choices E)) :
  (forall p e, (costFct p <= costFct (addFct p e))%Z) ->
  forall p q, In q (completions addFct p rem) -> (costFct p <= costFct q)%Z.
Proof.
  intros Hmono. induction rem as [|c rem IH]; simpl; intros p q Hq.
  - destruct Hq as [<-|[]]. lia.
  - apply in_flat_map in Hq. destruct Hq as (e & _ & Hq).
    specialize (IH _ _ Hq). specialize (Hmono p e). lia.
Qed.

Lemma allPlans_completions (toAdd : list (list E)) : forall initial q,
  In q (allPlans addFct initial toAdd) <->
  In q (completions addFct initial (ofArrays toAdd)).
Proof.
  unfold allPlans. induction toAdd as [|c toAdd IH]; intros initial q; simpl.
  - tauto.
  - rewrite candidates_ofArray, in_map_iff, in_flat_map. split.
    + intros (picks & Hfold & Hin). apply in_flat_map in Hin.
      destruct Hin as (e & He & Hin). apply in_map_iff in Hin.
      destruct Hin as (picks' & <- & Hin). exists e. split; [exact He|].
      apply IH. apply in_map_iff. exists picks'. auto.
    + intros (e & He & Hin). apply IH in Hin. apply in_map_iff in Hin.
      destruct Hin as (picks' & Hfold & Hin). exists (e :: picks').
      split; [exact Hfold|]. apply in_flat_map. exists e. split; [exact He|].
      apply in_map. exact Hin.
Qed.

(** What an iteration does to the complete plans a work item leads to: the
    stack after the re-insertion covers those of the stack before, except
    the ones that go through the extracted candidate. *)
Lemma sibling_covers item s (next : Choices E) other k x :
  remaining item = next :: other ->
  extract k next = inr x ->
  forall q,
    (exists item', In item' (s ++ [item]) /\
       In q (completions addFct (partial item') (remaining item'))) ->
    (exists item',
       In item' (if isLast x then s
                 else insertInStack (sibling item next other x) s) /\
       In q (completions addFct (partial item') (remaining item'))) \/
    In q (completions addFct (addFct (partial item) (extracted x)) other).
Proof.
  intros Hrem Hext q (item' & Hin & Hq).
  apply in_app_or in Hin. destruct Hin as [Hin|[<-|[]]].
  - left. exists item'. split; [|exact Hq].
    destruct (isLast x); [exact Hin|]. apply In_insertInStack. auto.
  - rewrite Hrem in Hq.
    apply (completions_extract k next x (partial item) other q Hext) in Hq.
    destruct Hq as [Hq|Hq]; [auto|].
    left. destruct (isLast x) eqn:Hlast.
    + destruct (completions_isLast k next x (partial item) other q Hext Hlast Hq).
    + exists (sibling item next other x). split; [|exact Hq].
      apply In_insertInStack. auto.
Qed.

(** Soundness of the search: every work item only leads to complete plans of
    the argument, and a best result is one of them, with its own cost. *)
Lemma search_sound (initial : P) (toAdd : list (Choices E)) st :
  reaches (initialState initial toAdd) st ->
  (forall item, In item (stack st) ->
     incl (completions addFct (partial item) (remaining item))
          (completions addFct initial toAdd)) /\
  (forall m, min st = Some m ->
     In (best m) (completions addFct initial toAdd) /\ cost m = costFct (best m)).
Proof.
  revert st.
  apply (reaches_invariant
    (fun st =>
      (forall item, In item (stack st) ->
         incl (completions addFct (partial item) (remaining item))
              (completions addFct initial toAdd)) /\
      (forall m, min st = Some m ->
         In (best m) (completions addFct initial toAdd) /\
         cost m = costFct (best m)))).
  - simpl. split.
    + intros item [<-|[]]. simpl. apply incl_refl.
    + discriminate.
  - intros st st' (Hincl & Hmin) Hstep.
    destruct (step_inr _ _ Hstep) as (item & s & Hstack & Hbody).
    destruct (body_inr _ _ _ _ _ Hbody)
      as (next & other & k & x & Hrem & _ & Hext & Hcases).
    set (G := completions addFct initial toAdd) in *.
    set (np := addFct (partial item) (extracted x)) in *.
    set (stack1 := if isLast x then s
                   else insertInStack (sibling item next other x) s) in *.
    pose proof (fun q => completions_extract k next x (partial item) other q Hext)
      as Hsplit.
    assert (Hitem : incl (completions addFct (partial item) (next :: other)) G).
    { rewrite <- Hrem. apply Hincl. rewrite Hstack. apply in_or_app. simpl. auto. }
    assert (Hnp : incl (completions addFct np other) G).
    { intros q Hq. apply Hitem. apply Hsplit. left. exact Hq. }
    assert (Hincl1 : forall item', In item' stack1 ->
              incl (completions addFct (partial item') (remaining item')) G).
    { subst stack1. destruct (isLast x).
      - intros item' Hin. apply Hincl. rewrite Hstack. apply in_or_app. auto.
      - intros item' Hin. apply In_insertInStack in Hin. destruct Hin as [->|Hin].
        + simpl. intros q Hq. apply Hitem. apply Hsplit. right. exact Hq.
        + apply Hincl. rewrite Hstack. apply in_or_app. auto. }
    simpl in Hcases.
    destruct Hcases as [(-> & ->)|[(_ & _ & ->)|(_ & _ & ->)]]; simpl; split.
    + exact Hincl1.
    + assert (Hin : In np G) by (apply Hnp; simpl; auto).
      intros m Hm. destruct (min st) as [m0|].
      * destruct (costFct np <? cost m0)%Z; inversion Hm; subst m; simpl; auto.
      * inversion Hm; subst m; simpl; auto.
    + exact Hincl1.
    + exact Hmin.
    + intros item' Hin. apply In_insertInStack in Hin. destruct Hin as [->|Hin].
      * exact Hnp.
      * apply Hincl1. exact Hin.
    + exact Hmin.
Qed.

(** Completeness of branch and bound under a monotone cost: every complete
    plan is still ahead on the stack or no cheaper than the best result. *)
Lemma search_complete (initial : P) (toAdd : list (Choices E)) st :
  (forall p e, (costFct p <= costFct (addFct p e))%Z) ->
  reaches (initialState initial toAdd) st ->
  forall q, In q (completions addFct initial toAdd) ->
    (exists item, In item (stack st) /\
       In q (completions addFct (partial item) (remaining item))) \/
    (exists m, min st = Some m /\ (cost m <= costFct q)%Z).
Proof.
  intros Hmono. revert st.
  apply (reaches_invariant
    (fun st =>
      forall q, In q (completions addFct initial toAdd) ->
        (exists item, In item (stack st) /\
           In q (completions addFct (partial item) (remaining item))) \/
        (exists m, min st = Some m /\ (cost m <= costFct q)%Z))).
  - simpl. intros q Hq. left. eexists. split; [left; reflexivity|exact Hq].
  - intros st st' Hcov Hstep.
    destruct (step_inr _ _ Hstep) as (item & s & Hstack & Hbody).
    destruct (body_inr _ _ _ _ _ Hbody)
      as (next & other & k & x & Hrem & _ & Hext & Hcases).
    pose proof (sibling_covers item s next other k x Hrem Hext) as Hcov1.
    rewrite <- Hstack in Hcov1.
    set (np := addFct (partial item) (extracted x)) in *.
    simpl in Hcases.
    destruct Hcases as [(-> & ->)|[(_ & (m0 & Hm0 & Hle) & ->)|(_ & _ & ->)]];
      simpl; intros q Hq; destruct (Hcov q Hq) as [Hstk|Hbest].
    + destruct (Hcov1 q Hstk) as [Hleft|[<-|[]]]; [auto|]. right.
      destruct (min st) as [m0|].
      * destruct (Z.ltb_spec (costFct np) (cost m0)); eexists;
          (split; [reflexivity|]); simpl; lia.
      * eexists. split; [reflexivity|]. simpl. lia.
    + right. destruct Hbest as (m0 & Hm0 & Hle). rewrite Hm0.
      destruct (Z.ltb_spec (costFct np) (cost m0)); eexists;
        (split; [reflexivity|]); simpl; lia.
    + destruct (Hcov1 q Hstk) as [Hleft|Hright]; [auto|]. right.
      exists m0. split; [exact Hm0|].
      pose proof (completions_cost other Hmono np q Hright). lia.
    + auto.
    + left. destruct (Hcov1 q Hstk) as [(item' & Hin & Hq')|Hright].
      * exists item'. split; [|exact Hq']. apply In_insertInStack. auto.
      * exists (continuation item other np). split; [|exact Hright].
        apply In_insertInStack. auto.
    + auto.
Qed.

(** C4: the best result is absent exactly as long as no complete plan has
    been costed; an iteration that starts with a best result ends with one,
    either the same or the complete plan just costed, and then of strictly
    lower cost; the first complete plan becomes the best result; a complete
    plan whose cost equals the current best cost leaves the best result as
    it is; and a best result is always a complete plan of the argument,
    with that plan's cost. *)
Theorem best_result_evolution (initial : P) (toAdd : list (Choices E)) st st' :
  reaches (initialState initial toAdd) st ->
  step st = Some (inr st') ->
  (min st = None <-> calls st = []) /\
  (forall m, min st = Some m ->
     exists m', min st' = Some m' /\
       (m' = m \/
        ((cost m' < cost m)%Z /\
         calls st' = calls st ++ [mkCall (best m') (cost m') (Some (cost m))]))) /\
  (forall p c previous,
     min st = None -> calls st' = calls st ++ [mkCall p c previous] ->
     min st' = Some (mkMin p c) /\ previous = None) /\
  (forall m p c previous,
     min st = Some m -> calls st' = calls st ++ [mkCall p c previous] ->
     c = cost m -> min st' = Some m) /\
  (forall m', min st' = Some m' ->
     In (best m') (completions addFct initial toAdd) /\
     cost m' = costFct (best m')).
Proof.
  intros Hreach Hstep. split; [exact (min_absent_iff_no_call _ _ _ Hreach)|].
  assert (Hsound : forall m', min st' = Some m' ->
            In (best m') (completions addFct initial toAdd) /\
            cost m' = costFct (best m')).
  { apply (search_sound initial toAdd st').
    eapply reaches_next; [exact Hreach|exact Hstep]. }
  revert Hsound. generalize (completions addFct initial toAdd). intros G Hsound.
  cut ((forall m, min st = Some m ->
          exists m', min st' = Some m' /\
            (m' = m \/
             ((cost m' < cost m)%Z /\
              calls st' = calls st ++ [mkCall (best m') (cost m') (Some (cost m))]))) /\
       (forall p c previous,
          min st = None -> calls st' = calls st ++ [mkCall p c previous] ->
          min st' = Some (mkMin p c) /\ previous = None) /\
       (forall m p c previous,
          min st = Some m -> calls st' = calls st ++ [mkCall p c previous] ->
          c = cost m -> min st' = Some m)); [tauto|].
  clear Hsound G.
  destruct (step_inr _ _ Hstep) as (item & s & _ & Hbody).
  destruct (body_inr _ _ _ _ _ Hbody) as (next & other & k & x & _ & _ & _ & Hcases).
  simpl in Hcases.
  assert (Hnocall : forall c, calls st <> calls st ++ [c]).
  { intros c Hc. apply (f_equal (@length _)) in Hc.
    rewrite length_app in Hc. simpl in Hc. lia. }
  destruct Hcases as [(_ & ->)|[(_ & _ & ->)|(_ & _ & ->)]]; simpl.
  - split; [|split].
    + intros m Hm. rewrite Hm.
      destruct (Z.ltb_spec (costFct (addFct (partial item) (extracted x))) (cost m)).
      * eexists. split; [reflexivity|]. right. simpl. split; [assumption|reflexivity].
      * exists m. auto.
    + intros p c previous Hm Hc. apply app_inv_head in Hc.
      inversion Hc; subst. rewrite Hm. simpl. auto.
    + intros m p c previous Hm Hc Hcost. apply app_inv_head in Hc.
      inversion Hc; subst. rewrite Hm.
      destruct (Z.ltb_spec (costFct (addFct (partial item) (extracted x))) (cost m));
        [lia|reflexivity].
  - split; [|split].
    + intros m Hm. exists m. auto.
    + intros p c previous _ Hc. destruct (Hnocall _ Hc).
    + intros m p c previous _ Hc. destruct (Hnocall _ Hc).
  - split; [|split].
    + intros m Hm. exists m. auto.
    + intros p c previous _ Hc. destruct (Hnocall _ Hc).
    + intros m p c previous _ Hc. destruct (Hnocall _ Hc).
Qed.

(** C1: on a non-empty choice list of non-empty choice sets, with a cost
    that never decreases when a candidate is added, the call returns a plan
    of the cartesian product together with its cost, and no plan of the
    cartesian product costs less. *)
Theorem generateAllPlansAndFindBest_optimal (initial : P) (toAdd : list (list E)) :
  toAdd <> [] ->
  (forall c, In c toAdd -> c <> []) ->
  (forall p e, (costFct p <= costFct (addFct p e))%Z) ->
  exists m observed,
    generateAllPlansAndFindBest addFct costFct initial (ofArrays toAdd)
    = Some (Returned m, observed) /\
    In (best m) (allPlans addFct initial toAdd) /\
    cost m = costFct (best m) /\
    forall q, In q (allPlans addFct initial toAdd) -> (cost m <= costFct q)%Z.
Proof.
  intros Hne Hsets Hmono.
  destruct (run_returns initial toAdd Hne Hsets)
    as (st & m & Hrun & Hreach & Hstack & Hm).
  destruct (search_sound initial (ofArrays toAdd) st Hreach) as (_ & Hmin).
  pose proof (search_complete initial (ofArrays toAdd) st Hmono Hreach) as Hcov.
  destruct (Hmin m Hm) as [Hin Hcost].
  exists m, (calls st). split; [exact Hrun|]. split; [|split].
  - apply allPlans_completions. exact Hin.
  - exact Hcost.
  - intros q Hq. apply allPlans_completions in Hq.
    destruct (Hcov q Hq) as [(item & Hitem & _)|(m' & Hm' & Hle)].
    + rewrite Hstack in Hitem. destruct Hitem.
    + rewrite Hm in Hm'. inversion Hm'; subst m'. exact Hle.
Qed.

(** *** The first descent *)

Lemma extract_head (e : E) (c : Choices E) :
  extract 0 (Some e :: c)
  = inr (mkExtractResult e (forallb (@isUndefined E) c) (None :: c)).
Proof.
  unfold extract. simpl. rewrite extractLoop_past by lia. reflexivity.
Qed.

Lemma insertInStack_indexed item s i :
  index item = Some i -> insertInStack item s = s ++ [item].
Proof.
  unfold insertInStack. intros ->. reflexivity.
Qed.

(** A work item with preferred index 0 whose first choice set is a populated
    array, more sets following, and no best result yet: the iteration ends
    with the continuation on top of the stack. *)
Lemma body_descend item s (e : E) (c : Choices E) c' (rest : list (Choices E)) :
  remaining item = (Some e :: c) :: c' :: rest ->
  index item = Some 0 ->
  exists s',
    body item s None []
    = inr (mkState
             (s' ++ [continuation item (c' :: rest) (addFct (partial item) e)])
             None []).
Proof.
  intros Hrem Hidx. unfold body. rewrite Hrem, Hidx. simpl.
  rewrite extract_head. simpl.
  eexists. rewrite (insertInStack_indexed _ _ 0) by exact Hidx. reflexivity.
Qed.

Lemma body_complete item s (e : E) (c : Choices E) :
  remaining item = [Some e :: c] ->
  index item = Some 0 ->
  exists s',
    body item s None []
    = inr (mkState s'
             (Some (mkMin (addFct (partial item) e)
                      (costFct (addFct (partial item) e))))
             [mkCall (addFct (partial item) e)
                (costFct (addFct (partial item) e)) None]).
Proof.
  intros Hrem Hidx. unfold body. rewrite Hrem, Hidx. simpl.
  rewrite extract_head. simpl. eexists. reflexivity.
Qed.

Lemma loop_calls_prefix fuel : forall st r,
  loop fuel st = Some r -> exists rest, snd r = calls st ++ rest.
Proof.
  assert (Hstep : forall st st', step st = Some (inr st') ->
            exists rest, calls st' = calls st ++ rest).
  { intros st st' Hs. destruct (step_inr _ _ Hs) as (item & s & _ & Hbody).
    destruct (body_inr _ _ _ _ _ Hbody) as (next & other & k & x & _ & _ & _ & Hcases).
    simpl in Hcases. destruct Hcases as [(_ & ->)|[(_ & _ & ->)|(_ & _ & ->)]]; simpl.
    - eauto.
    - exists []. rewrite app_nil_r. reflexivity.
    - exists []. rewrite app_nil_r. reflexivity. }
  assert (Hnil : forall st, calls st = calls st ++ [])
    by (intros; rewrite app_nil_r; reflexivity).
  induction fuel as [|fuel IH]; intros st r; simpl;
    destruct (step st) as [[e|st1]|] eqn:Hs; intros H; try discriminate;
    try (inversion H; subst r; simpl; exists []; apply Hnil).
  destruct (IH _ _ H) as [rest Hrest]. destruct (Hstep _ _ Hs) as [rest1 Hrest1].
  exists (rest1 ++ rest). rewrite Hrest, Hrest1, app_assoc. reflexivity.
Qed.

Lemma descent_first_call (todo : list (list E)) : forall es item s fuel r,
  todo <> [] -> heads todo = Some es ->
  remaining item = ofArrays todo -> index item = Some 0 ->
  loop fuel (mkState (s ++ [item]) None []) = Some r ->
  exists rest,
    snd r = mkCall (fold_left addFct es (partial item))
              (costFct (fold_left addFct es (partial item))) None :: rest.
Proof.
  induction todo as [|c todo IH]; intros es item s fuel r Hne Hheads Hrem Hidx Hloop;
    [contradiction|].
  simpl in Hheads. destruct c as [|e c]; [discriminate|].
  destruct (heads todo) as [es'|] eqn:Hes'; [|discriminate].
  inversion Hheads; subst es; clear Hheads. simpl in Hrem.
  destruct todo as [|c' todo].
  - simpl in Hes'. inversion Hes'; subst es'. simpl.
    destruct (body_complete item s e (map (@Some E) c) Hrem Hidx) as [s' Hbody].
    destruct fuel as [|fuel]; simpl in Hloop; rewrite step_snoc, Hbody in Hloop;
      [discriminate|].
    apply loop_calls_prefix in Hloop. exact Hloop.
  - destruct (body_descend item s e (map (@Some E) c) (map (@Some E) c')
                (ofArrays todo) Hrem Hidx) as [s' Hbody].
    destruct fuel as [|fuel]; simpl in Hloop; rewrite step_snoc, Hbody in Hloop;
      [discriminate|].
    apply (IH es') in Hloop; auto. discriminate.
Qed.

Lemma descent_fails (todo : list (Choices E)) : forall item s fuel r,
  (exists c, In c todo /\ populatedCount c = 0) ->
  remaining item = todo -> index item = Some 0 ->
  loop fuel (mkState (s ++ [item]) None []) = Some r ->
  exists message, r = (Threw (AssertionError message), []).
Proof.
  induction todo as [|c todo IH]; intros item s fuel r (bad & Hin & Hbad) Hrem Hidx Hloop.
  - destruct Hin.
  - destruct c as [|[e|] c].
    + assert (Hbody : body item s None []
                      = inl (AssertionError "Passed a remaining with all undefined")).
      { unfold body. rewrite Hrem, Hidx. reflexivity. }
      destruct fuel; simpl in Hloop; rewrite step_snoc, Hbody in Hloop;
        inversion Hloop; eauto.
    + destruct todo as [|c' todo].
      * destruct Hin as [<-|[]]. discriminate.
      * destruct (body_descend item s e c c' todo Hrem Hidx) as [s' Hbody].
        destruct fuel as [|fuel]; simpl in Hloop; rewrite step_snoc, Hbody in Hloop;
          [discriminate|].
        apply IH in Hloop; auto.
        destruct Hin as [<-|Hin]; [discriminate|]. exists bad. auto.
    + assert (Hbody : body item s None [] = inl (AssertionError "Invalid index")).
      { unfold body. rewrite Hrem, Hidx. reflexivity. }
      destruct fuel; simpl in Hloop; rewrite step_snoc, Hbody in Hloop;
        inversion Hloop; eauto.
Qed.

(** C8: when some choice set of the argument has no populated slot, the call
    ends with an assertion failure, before any plan is observed, and returns
    nothing. *)
Theorem empty_choice_set_throws (initial : P) (toAdd : list (Choices E)) :
  (exists c, In c toAdd /\ populatedCount c = 0) ->
  exists message,
    generateAllPlansAndFindBest addFct costFct initial toAdd
    = Some (Threw (AssertionError message), []).
Proof.
  intros Hbad.
  destruct (generateAllPlansAndFindBest_ends initial toAdd) as (r & _ & Hrun & _).
  rewrite Hrun. unfold generateAllPlansAndFindBest in Hrun.
  destruct (descent_fails toAdd (mkPartial initial toAdd true (Some 0)) []
              (searchBound toAdd) r Hbad eq_refl eq_refl Hrun) as [message ->].
  exists message. reflexivity.
Qed.

Lemma heads_Forall2 (toAdd : list (list E)) : forall es,
  heads toAdd = Some es -> Forall2 (fun c e => nth_error c 0 = Some e) toAdd es.
Proof.
  induction toAdd as [|c toAdd IH]; simpl; intros es H.
  - inversion H. constructor.
  - destruct c as [|e c]; [discriminate|].
    destruct (heads toAdd) as [es'|]; [|discriminate].
    inversion H; subst es. constructor; [reflexivity|]. apply IH. reflexivity.
Qed.

Lemma heads_defined (toAdd : list (list E)) :
  (forall c, In c toAdd -> c <> []) -> exists es, heads toAdd = Some es.
Proof.
  induction toAdd as [|c toAdd IH]; simpl; intros Hsets.
  - eauto.
  - destruct c as [|e c]; [destruct (Hsets [] (or_introl eq_refl) eq_refl)|].
    destruct IH as [es ->]; eauto.
Qed.

(** C10: on a non-empty list of arrays of candidates, the first plan handed
    to [onPlan] is the initial plan with the candidate at index 0 of every
    choice set folded in, in list order, and the previous cost it is handed
    is [undefined]; when some array is empty, so that there is no such
    candidate, [onPlan] is never invoked. *)
Theorem first_observed_plan (initial : P) (toAdd : list (list E)) :
  toAdd <> [] ->
  exists completion observed,
    generateAllPlansAndFindBest addFct costFct initial (ofArrays toAdd)
    = Some (completion, observed) /\
    ((forall c, In c toAdd -> c <> []) ->
     exists es rest,
       Forall2 (fun c e => nth_error c 0 = Some e) toAdd es /\
       observed = mkCall (fold_left addFct es initial)
                    (costFct (fold_left addFct es initial)) None :: rest) /\
    (In [] toAdd -> observed = []).
Proof.
  intros Hne.
  destruct (generateAllPlansAndFindBest_ends initial (ofArrays toAdd))
    as ([completion observed] & _ & Hrun & _).
  exists completion, observed. split; [exact Hrun|].
  unfold generateAllPlansAndFindBest in Hrun. split.
  - intros Hsets. destruct (heads_defined toAdd Hsets) as [es Hes].
    destruct (descent_first_call toAdd es
                (mkPartial initial (ofArrays toAdd) true (Some 0)) []
                _ _ Hne Hes eq_refl eq_refl Hrun) as [rest Hrest].
    exists es, rest. split; [apply heads_Forall2; exact Hes|exact Hrest].
  - intros Hempty.
    destruct (descent_fails (ofArrays toAdd)
                (mkPartial initial (ofArrays toAdd) true (Some 0)) []
                _ _ (ex_intro _ [] (conj (in_map (map (@Some E)) toAdd [] Hempty)
                                         eq_refl))
                eq_refl eq_refl Hrun) as [message Hr].
    inversion Hr. reflexivity.
Qed.

(** *** Iterations and exceptions, on every argument *)

Lemma afterIterations_bound n : forall st st',
  afterIterations addFct costFct n st = Some st' ->
  n + stackBound (stack st') <= stackBound (stack st).
Proof.
  induction n as [|n IH]; simpl; intros st st' H.
  - inversion H. lia.
  - destruct (step st) as [[e|st1]|] eqn:Hstep; try discriminate.
    apply step_decreases in Hstep. apply IH in H. lia.
Qed.

(** X3: on every argument, whatever its slots hold, the call ends, with a
    result or with an exception; the loop never completes more than
    [searchBound toAdd] iterations, and running it with any larger bound
    gives the same outcome. *)
Theorem loop_iteration_bound (initial : P) (toAdd : list (Choices E)) :
  (exists r, generateAllPlansAndFindBest addFct costFct initial toAdd = Some r) /\
  (forall n st,
     afterIterations addFct costFct n (initialState initial toAdd) = Some st ->
     n <= searchBound toAdd) /\
  (forall fuel, searchBound toAdd <= fuel ->
     loop fuel (initialState initial toAdd)
     = generateAllPlansAndFindBest addFct costFct initial toAdd).
Proof.
  split; [|split].
  - destruct (generateAllPlansAndFindBest_ends initial toAdd) as (r & _ & Hr & _).
    exists r. exact Hr.
  - intros n st H. apply afterIterations_bound in H.
    unfold stackBound in H at 2. simpl in H. lia.
  - intros fuel. apply generateAllPlansAndFindBest_fuel.
Qed.

Lemma pickNext_inl (idx : option nat) (c : Choices E) e :
  pickNext idx c = inl e ->
  e = AssertionError "Passed a remaining with all undefined" \/
  e = AssertionError "Invalid index".
Proof.
  assert (Hscan : scanFromStart c = inl e ->
            e = AssertionError "Passed a remaining with all undefined").
  { unfold scanFromStart. destruct (firstDefined 0 c); [discriminate|].
    intros H. inversion H. reflexivity. }
  unfold pickNext. destruct idx as [i|]; [|auto].
  destruct (length c <=? i); [auto|].
  destruct (nth_error c i) as [[e'|]|]; intros H; inversion H; auto.
Qed.

Lemma body_inl item s m cs e :
  body item s m cs = inl e ->
  (remaining item = [] /\ e = TypeError) \/
  (exists next other,
     remaining item = next :: other /\ pickNext (index item) next = inl e).
Proof.
  unfold body. intros H. destruct (remaining item) as [|next other].
  - inversion H. auto.
  - right. exists next, other. split; [reflexivity|].
    destruct (pickNext (index item) next) as [e'|k] eqn:Hpick.
    + simpl in H. inversion H. reflexivity.
    + exfalso. simpl in H.
      destruct (pickNext_populated E _ _ _ Hpick) as [e' He'].
      destruct (extract_populated E _ _ _ He') as (x & Hx & _).
      rewrite Hx in H. simpl in H.
      destruct (length other =? 0); [discriminate|].
      destruct m as [m0|]; [|discriminate].
      destruct (_ >=? _)%Z; discriminate.
Qed.

(** The loop only leaves with an empty stack after recording a best result,
    and a non-empty argument only puts non-empty choice lists on the stack. *)
Lemma stack_reaches (initial : P) (toAdd : list (Choices E)) st :
  reaches (initialState initial toAdd) st ->
  (stack st = [] -> min st <> None) /\
  (toAdd <> [] -> forall item, In item (stack st) -> remaining item <> []).
Proof.
  revert st.
  apply (reaches_invariant
    (fun st =>
       (stack st = [] -> min st <> None) /\
       (toAdd <> [] -> forall item, In item (stack st) -> remaining item <> []))).
  - simpl. split; [discriminate|]. intros Hne item [<-|[]]. exact Hne.
  - intros st st' [Hmin Hrem] Hstep.
    destruct (step_inr _ _ Hstep) as (item & s & Hstack & Hbody).
    destruct (body_inr _ _ _ _ _ Hbody) as (next & other & k & x & _ & _ & _ & Hcases).
    assert (Hsib : toAdd <> [] -> forall item',
              In item' (if isLast x then s
                        else insertInStack (sibling item next other x) s) ->
              remaining item' <> []).
    { intros Hne item' Hin.
      assert (Hs : In item' s -> remaining item' <> []).
      { intros Hin'. apply (Hrem Hne). rewrite Hstack. apply in_or_app. auto. }
      destruct (isLast x); [auto|].
      apply In_insertInStack in Hin. destruct Hin as [->|Hin]; [discriminate|auto]. }
    simpl in Hcases.
    destruct Hcases as [(_ & ->)|[(_ & (m0 & Hm0 & _) & ->)|(Hother & _ & ->)]];
      simpl; (split; [|try exact Hsib]).
    + intros _. destruct (min st) as [m0|]; [|discriminate].
      destruct (_ <? _)%Z; discriminate.
    + intros _. rewrite Hm0. discriminate.
    + unfold insertInStack. destruct (index _); intros Hnil.
      * apply app_eq_nil in Hnil. destruct Hnil; discriminate.
      * discriminate.
    + intros Hne item' Hin. apply In_insertInStack in Hin.
      destruct Hin as [->|Hin]; [exact Hother|exact (Hsib Hne item' Hin)].
Qed.

(** X4: the only exceptions the call raises are the [TypeError] of the first
    iteration on an empty choice list and the two assertions of [pickNext]
    on a non-empty one; the assertion of [extract] and the final assertion
    that a plan was found never fail. *)
Theorem thrown_errors (initial : P) (toAdd : list (Choices E)) e observed :
  generateAllPlansAndFindBest addFct costFct initial toAdd
  = Some (Threw e, observed) ->
  (toAdd = [] /\ e = TypeError /\ observed = []) \/
  (toAdd <> [] /\
   (e = AssertionError "Passed a remaining with all undefined" \/
    e = AssertionError "Invalid index")).
Proof.
  intros Hrun. destruct toAdd as [|c toAdd].
  - left. unfold generateAllPlansAndFindBest in Hrun. simpl in Hrun.
    inversion Hrun. auto.
  - right. split; [discriminate|].
    destruct (generateAllPlansAndFindBest_ends initial (c :: toAdd))
      as (r & st & Hr & Hreach & Hend).
    rewrite Hrun in Hr. inversion Hr; subst r; clear Hr.
    destruct (stack_reaches initial (c :: toAdd) st Hreach) as [Hmin Hrem].
    destruct Hend as [(Hstep & Hfin)|(e' & Hstep & Hthrew)].
    + exfalso. apply step_None in Hstep. specialize (Hmin Hstep).
      unfold finish in Hfin. destruct (min st); [discriminate|contradiction].
    + inversion Hthrew; subst e'.
      destruct (step_inl _ _ Hstep) as (item & s & Hstack & Hbody).
      destruct (body_inl _ _ _ _ _ Hbody) as [[Hnil _]|(next & other & _ & Hpick)].
      * exfalso. apply (Hrem ltac:(discriminate) item); [|exact Hnil].
        rewrite Hstack. apply in_or_app. simpl. auto.
      * exact (pickNext_inl _ _ _ Hpick).
Qed.

(** *** What the observer sees, on every argument *)

Lemma calls_complete (initial : P) (toAdd : list (Choices E)) st :
  reaches (initialState initial toAdd) st ->
  forall c, In c (calls st) ->
    In (callPlan c) (completions addFct initial toAdd) /\
    callCost c = costFct (callPlan c).
Proof.
  intros Hreach. induction Hreach as [|st st' Hreach IH Hstep].
  - intros c [].
  - destruct (search_sound initial toAdd st Hreach) as [Hincl _].
    destruct (step_inr _ _ Hstep) as (item & s & Hstack & Hbody).
    destruct (body_inr _ _ _ _ _ Hbody)
      as (next & other & k & x & Hrem & _ & Hext & Hcases).
    simpl in Hcases.
    destruct Hcases as [(-> & ->)|[(_ & _ & ->)|(_ & _ & ->)]]; simpl;
      try exact IH.
    intros c Hin. apply in_app_or in Hin. destruct Hin as [Hin|[<-|[]]].
    + exact (IH c Hin).
    + simpl. split; [|reflexivity].
      apply (Hincl item).
      * rewrite Hstack. apply in_or_app. simpl. auto.
      * rewrite Hrem. apply (completions_extract k next x _ _ _ Hext).
        left. simpl. auto.
Qed.

(** X5: every plan handed to [onPlan] is a complete plan of the argument,
    one populated candidate of each choice set folded into the initial plan
    in list order, and the cost handed with it is [costFct] of that plan. *)
Theorem observed_plans_complete (initial : P) (toAdd : list (Choices E))
  completion observed :
  generateAllPlansAndFindBest addFct costFct initial toAdd
  = Some (completion, observed) ->
  forall c, In c observed ->
    In (callPlan c) (completions addFct initial toAdd) /\
    callCost c = costFct (callPlan c).
Proof.
  intros Hrun.
  destruct (generateAllPlansAndFindBest_ends initial toAdd)
    as (r & st & Hr & Hreach & Hend).
  rewrite Hrun in Hr. inversion Hr; subst r; clear Hr.
  assert (Hobs : observed = calls st).
  { destruct Hend as [(_ & H)|(e & _ & H)]; inversion H; reflexivity. }
  rewrite Hobs. exact (calls_complete initial toAdd st Hreach).
Qed.








(** *** How many plans are observed *)





(** *** Arguments with a hole at index 0, and arguments of the declared type *)

Lemma descent_fails_first_slot (todo : list (Choices E)) : forall item s fuel r,
  (exists c, In c todo /\ forall e, nth_error c 0 <> Some (Some e)) ->
  remaining item = todo -> index item = Some 0 ->
  loop fuel (mkState (s ++ [item]) None []) = Some r ->
  exists message, r = (Threw (AssertionError message), []).
Proof.
  induction todo as [|c todo IH]; intros item s fuel r (bad & Hin & Hbad) Hrem Hidx Hloop.
  - destruct Hin.
  - destruct c as [|[e|] c].
    + assert (Hbody : body item s None []
                      = inl (AssertionError "Passed a remaining with all undefined")).
      { unfold body. rewrite Hrem, Hidx. reflexivity. }
      destruct fuel; simpl in Hloop; rewrite step_snoc, Hbody in Hloop;
        inversion Hloop; eauto.
    + assert (Hin' : In bad todo).
      { destruct Hin as [<-|Hin]; [|exact Hin]. destruct (Hbad e eq_refl). }
      destruct todo as [|c' todo]; [destruct Hin'|].
      destruct (body_descend item s e c c' todo Hrem Hidx) as [s' Hbody].
      destruct fuel as [|fuel]; simpl in Hloop; rewrite step_snoc, Hbody in Hloop;
        [discriminate|].
      apply IH in Hloop; auto. exists bad. auto.
    + assert (Hbody : body item s None [] = inl (AssertionError "Invalid index")).
      { unfold body. rewrite Hrem, Hidx. reflexivity. }
      destruct fuel; simpl in Hloop; rewrite step_snoc, Hbody in Hloop;
        inversion Hloop; eauto.
Qed.

(** X9: the first descent asserts slot 0 of every choice set: when some
    choice set has no candidate at index 0, be it an empty array or an array
    with candidates further on, the call fails an assertion of [pickNext]
    before any plan is observed. *)
Theorem hole_at_first_slot_throws (initial : P) (toAdd : list (Choices E)) :
  (exists c, In c toAdd /\ forall e, nth_error c 0 <> Some (Some e)) ->
  exists message,
    generateAllPlansAndFindBest addFct costFct initial toAdd
    = Some (Threw (AssertionError message), []).
Proof.
  intros Hbad.
  destruct (generateAllPlansAndFindBest_ends initial toAdd) as (r & _ & Hrun & _).
  rewrite Hrun. unfold generateAllPlansAndFindBest in Hrun.
  destruct (descent_fails_first_slot toAdd (mkPartial initial toAdd true (Some 0)) []
              (searchBound toAdd) r Hbad eq_refl eq_refl Hrun) as [message ->].
  exists message. reflexivity.
Qed.

Lemma empty_array_or_none (toAdd : list (list E)) :
  In [] toAdd \/ forall c, In c toAdd -> c <> [].
Proof.
  induction toAdd as [|c toAdd [IH|IH]].
  - right. intros c [].
  - left. simpl. auto.
  - destruct c as [|e c].
    + left. simpl. auto.
    + right. intros c' [<-|Hin]; [discriminate|auto].
Qed.

(** X10: on an argument of the declared type [E[][]] the call returns a
    result exactly when the choice list is non-empty and none of its arrays
    is empty. *)
Theorem returns_iff_well_formed (initial : P) (toAdd : list (list E)) :
  (exists m observed,
     generateAllPlansAndFindBest addFct costFct initial (ofArrays toAdd)
     = Some (Returned m, observed)) <->
  (toAdd <> [] /\ forall c, In c toAdd -> c <> []).
Proof.
  split.
  - intros (m & observed & Hrun). split.
    + intros ->. unfold generateAllPlansAndFindBest in Hrun. simpl in Hrun.
      discriminate.
    + destruct (empty_array_or_none toAdd) as [Hempty|Hsets]; [|exact Hsets].
      exfalso. unfold generateAllPlansAndFindBest in Hrun.
      destruct (descent_fails (ofArrays toAdd)
                  (mkPartial initial (ofArrays toAdd) true (Some 0)) []
                  _ _ (ex_intro _ [] (conj (in_map (map (@Some E)) toAdd [] Hempty)
                                           eq_refl))
                  eq_refl eq_refl Hrun) as [message Hr].
      discriminate.
  - intros [Hne Hsets].
    destruct (run_returns initial toAdd Hne Hsets) as (st & m & Hrun & _).
    exists m, (calls st). exact Hrun.
Qed.

(** *** Choice lists that leave no choice *)

Lemma body_single_descend item s (e : E) c' (rest : list (Choices E)) :
  remaining item = [Some e] :: c' :: rest ->
  index item = Some 0 ->
  body item s None []
  = inr (mkState
           (s ++ [continuation item (c' :: rest) (addFct (partial item) e)])
           None []).
Proof.
  intros Hrem Hidx. unfold body. rewrite Hrem, Hidx. simpl.
  rewrite (insertInStack_indexed _ _ 0) by exact Hidx. reflexivity.
Qed.

Lemma body_single_complete item s (e : E) :
  remaining item = [[Some e]] ->
  index item = Some 0 ->
  body item s None []
  = inr (mkState s
           (Some (mkMin (addFct (partial item) e)
                    (costFct (addFct (partial item) e))))
           [mkCall (addFct (partial item) e)
              (costFct (addFct (partial item) e)) None]).
Proof.
  intros Hrem Hidx. unfold body. rewrite Hrem, Hidx. reflexivity.
Qed.

Lemma loop_body fuel item s m cs st' r :
  loop fuel (mkState (s ++ [item]) m cs) = Some r ->
  body item s m cs = inr st' ->
  exists fuel', loop fuel' st' = Some r.
Proof.
  intros Hloop Hbody.
  destruct fuel as [|fuel]; simpl in Hloop; rewrite step_snoc, Hbody in Hloop;
    [discriminate|eauto].
Qed.

Lemma loop_done fuel m cs r :
  loop fuel (mkState (@nil (Partial P E)) (Some m) cs) = Some r ->
  r = (Returned m, cs).
Proof.
  destruct fuel; simpl; intros H; inversion H; reflexivity.
Qed.

Lemma single_candidates_run (es : list E) : forall item fuel r,
  es <> [] ->
  remaining item = ofArrays (map (fun e => [e]) es) -> index item = Some 0 ->
  loop fuel (mkState ([] ++ [item]) None []) = Some r ->
  r = (Returned (mkMin (fold_left addFct es (partial item))
                   (costFct (fold_left addFct es (partial item)))),
       [mkCall (fold_left addFct es (partial item))
          (costFct (fold_left addFct es (partial item))) None]).
Proof.
  induction es as [|e es IH]; intros item fuel r Hne Hrem Hidx Hloop;
    [contradiction|].
  simpl in Hrem. destruct es as [|e' es].
  - destruct (loop_body _ _ _ _ _ _ _ Hloop (body_single_complete item [] e Hrem Hidx))
      as [fuel' Hloop'].
    exact (loop_done _ _ _ _ Hloop').
  - destruct (loop_body _ _ _ _ _ _ _ Hloop (body_single_descend item [] e _ _ Hrem Hidx))
      as [fuel' Hloop'].
    apply IH in Hloop'; [exact Hloop'|discriminate|reflexivity|exact Hidx].
Qed.

(** X11: when every choice set offers exactly one candidate, the call
    observes exactly one plan, the initial plan with all those candidates
    folded in, with previous cost [undefined], and returns it. *)
Theorem single_candidates_one_plan (initial : P) (es : list E) :
  es <> [] ->
  generateAllPlansAndFindBest addFct costFct initial
    (ofArrays (map (fun e => [e]) es))
  = Some (Returned (mkMin (fold_left addFct es initial)
                      (costFct (fold_left addFct es initial))),
          [mkCall (fold_left addFct es initial)
             (costFct (fold_left addFct es initial)) None]).
Proof.
  intros Hne.
  destruct (generateAllPlansAndFindBest_ends initial
              (ofArrays (map (fun e => [e]) es))) as (r & _ & Hrun & _).
  rewrite Hrun. f_equal. unfold generateAllPlansAndFindBest in Hrun.
  exact (single_candidates_run es
           (mkPartial initial (ofArrays (map (fun e => [e]) es)) true (Some 0))
           _ r Hne eq_refl eq_refl Hrun).
Qed.

(** *** A single piece *)

Lemma extractLoop_at (pre : Choices E) (e : E) (post : Choices E) : forall i acc,
  extractLoop i (i + length pre) (pre ++ Some e :: post) acc
  = (acc && forallb (@isUndefined E) (pre ++ post), pre ++ None :: post).
Proof.
  induction pre as [|s pre IH]; intros i acc; simpl.
  - rewrite Nat.add_0_r, Nat.eqb_refl, extractLoop_past by lia. reflexivity.
  - destruct (Nat.eqb_spec i (i + S (length pre))); [lia|].
    replace (i + S (length pre)) with (S i + length pre) by lia.
    rewrite IH, andb_assoc. reflexivity.
Qed.

Lemma extract_at (pre : Choices E) (e : E) (post : Choices E) :
  extract (length pre) (pre ++ Some e :: post)
  = inr (mkExtractResult e (forallb (@isUndefined E) (pre ++ post))
           (pre ++ None :: post)).
Proof.
  unfold extract. rewrite nth_error_app2, Nat.sub_diag by lia.
  pose proof (extractLoop_at pre e post 0 true) as Hloop.
  rewrite Nat.add_0_l in Hloop. cbv beta iota. simpl nth_error. cbv beta iota.
  rewrite Hloop. reflexivity.
Qed.

Lemma pickNext_at (pre : Choices E) (e : E) (post : Choices E) :
  pickNext (Some (length pre)) (pre ++ Some e :: post) = inr (length pre).
Proof.
  unfold pickNext. rewrite length_app. simpl.
  destruct (Nat.leb_spec (length pre + S (length post)) (length pre)); [lia|].
  rewrite nth_error_app2, Nat.sub_diag by lia. reflexivity.
Qed.

Lemma body_single_piece item m cs (pre : Choices E) (e : E) (post : Choices E) :
  remaining item = [pre ++ Some e :: post] ->
  index item = Some (length pre) ->
  exists m',
    body item [] m cs
    = inr (mkState
             (if forallb (@isUndefined E) (pre ++ post) then []
              else insertInStack
                     (sibling item (pre ++ Some e :: post) []
                        (mkExtractResult e (forallb (@isUndefined E) (pre ++ post))
                           (pre ++ None :: post)))
                     [])
             (Some m')
             (cs ++ [mkCall (addFct (partial item) e)
                       (costFct (addFct (partial item) e))
                       (option_map (@cost P) m)])).
Proof.
  intros Hrem Hidx. unfold body. rewrite Hrem. cbv beta iota.
  rewrite Hidx, pickNext_at. unfold bindE at 1. rewrite extract_at.
  unfold bindE. cbv beta iota. simpl.
  destruct m as [m0|]; [destruct (_ <? _)%Z|]; eexists; reflexivity.
Qed.

Lemma single_piece_run (tail : list E) : forall pre item m cs fuel r,
  tail <> [] ->
  forallb (@isUndefined E) pre = true ->
  remaining item = [pre ++ map (@Some E) tail] ->
  isRoot item = true ->
  index item = Some (length pre) ->
  loop fuel (mkState ([] ++ [item]) m cs) = Some r ->
  (exists m', fst r = Returned m') /\
  map (@callPlan P) (snd r)
  = map (@callPlan P) cs ++ map (addFct (partial item)) tail.
Proof.
  induction tail as [|e tail IH]; intros pre item m cs fuel r Hne Hpre Hrem Hroot Hidx Hloop;
    [contradiction|].
  simpl in Hrem.
  destruct (body_single_piece item m cs pre e (map (@Some E) tail) Hrem Hidx)
    as [m' Hbody].
  destruct (loop_body _ _ _ _ _ _ _ Hloop Hbody) as [fuel' Hloop'].
  clear Hloop Hbody. destruct tail as [|e2 tail].
  - simpl in Hloop'. rewrite app_nil_r, Hpre in Hloop'.
    apply loop_done in Hloop'. subst r. simpl. split; [eauto|].
    rewrite map_app. reflexivity.
  - assert (Hnot : forallb (@isUndefined E) (pre ++ map (@Some E) (e2 :: tail)) = false).
    { rewrite forallb_app. simpl. apply andb_false_r. }
    rewrite Hnot in Hloop'.
    assert (Hsib : index (sibling item (pre ++ Some e :: map (@Some E) (e2 :: tail)) []
                            (mkExtractResult e false
                               (pre ++ None :: map (@Some E) (e2 :: tail))))
                   = Some (length (pre ++ [None]))).
    { unfold sibling. simpl. rewrite Hroot, Hidx. simpl.
      rewrite !length_app. simpl. rewrite length_map.
      destruct (Z.ltb_spec (Z.of_nat (length pre))
                  (Z.of_nat (length pre + S (S (length tail))) - 1)); [reflexivity|lia]. }
    rewrite (insertInStack_indexed _ _ _ Hsib) in Hloop'.
    apply (IH (pre ++ [None])) in Hloop'.
    + destruct Hloop' as [Hret Hplans]. split; [exact Hret|].
      rewrite Hplans, map_app. simpl. rewrite <- app_assoc. reflexivity.
    + discriminate.
    + rewrite forallb_app, Hpre. reflexivity.
    + simpl. rewrite <- app_assoc. reflexivity.
    + exact Hroot.
    + exact Hsib.
Qed.

(** X12: with a single piece every candidate is tried: the observed plans
    are the initial plan combined with each candidate of the array, in array
    order, and the call returns. *)
Theorem single_piece_tries_all (initial : P) (c : list E) :
  c <> [] ->
  exists m observed,
    generateAllPlansAndFindBest addFct costFct initial (ofArrays [c])
    = Some (Returned m, observed) /\
    map (@callPlan P) observed = map (addFct initial) c.
Proof.
  intros Hne.
  destruct (generateAllPlansAndFindBest_ends initial (ofArrays [c]))
    as ([completion observed] & _ & Hrun & _).
  pose proof Hrun as Hloop. unfold generateAllPlansAndFindBest in Hloop.
  destruct (single_piece_run c []
              (mkPartial initial (ofArrays [c]) true (Some 0)) None []
              _ _ Hne eq_refl eq_refl eq_refl eq_refl Hloop) as [[m Hm] Hplans].
  simpl in Hm, Hplans. subst completion.
  exists m, observed. auto.
Qed.

End Driver.

(** ** The three-piece scenario, and the theorems above at concrete inputs *)

Module ScenarioFacts.

Import Scenario.

Lemma costFct_monotone (p : Plan) (e : Candidate) :
  (costFct p <= costFct (addFct p e))%Z.
Proof.
  unfold costFct, addFct. rewrite map_app, list_sum_app.
  apply Nat2Z.inj_le. apply Nat.le_add_r.
Qed.

Lemma toAdd_nonempty_sets (c : list Candidate) : In c toAdd -> c <> [].
Proof.
  intros [<-|[<-|[<-|[]]]]; discriminate.
Qed.

(** C2, as the code has it: on the three-piece input the call returns the
    plan [a1, b2, c1], whose cost is 1 + 1 + 0 = 2, after observing the
    diagonal plan [a1, b1, c1] of cost 3 first. *)
Theorem scenario_best_plan :
  generateAllPlansAndFindBest addFct costFct initial (ofArrays toAdd)
  = Some (Returned {| best := [a1; b2; c1]; cost := 2 |},
          [ {| callPlan := [a1; b1; c1]; callCost := 3; callPreviousCost := None |};
            {| callPlan := [a1; b2; c1]; callCost := 2;
               callPreviousCost := Some 3%Z |} ]).
Proof.
  vm_compute. reflexivity.
Qed.

(** The call does not return a total cost of 3, with [a1, b2, c1] or with
    any other plan. *)
Lemma scenario_cost_is_not_3 :
  ~ exists plan observed,
      generateAllPlansAndFindBest addFct costFct initial (ofArrays toAdd)
      = Some (Returned {| best := plan; cost := 3 |}, observed).
Proof.
  intros (plan & observed & H). vm_compute in H. discriminate.
Qed.

Lemma generateAllPlansAndFindBest_optimal_witness :
  exists m observed,
    generateAllPlansAndFindBest addFct costFct initial (ofArrays toAdd)
    = Some (Returned m, observed) /\
    In (best m) (allPlans addFct initial toAdd) /\
    cost m = costFct (best m) /\
    forall q, In q (allPlans addFct initial toAdd) -> (cost m <= costFct q)%Z.
Proof.
  apply (generateAllPlansAndFindBest_optimal Plan Candidate addFct costFct
           initial toAdd).
  - discriminate.
  - exact toAdd_nonempty_sets.
  - exact costFct_monotone.
Defined.

(** The root work item of the three-piece input has five populated slots
    and no piece folded in, while there are three pieces. *)
Lemma populated_slots_not_accounted :
  ~ (forall st item n,
       reaches addFct costFct (initialState initial (ofArrays toAdd)) st ->
       In item (stack st) ->
       foldedFrom addFct initial n (partial item) ->
       populatedSlots item + n = length toAdd).
Proof.
  intros H.
  specialize (H (initialState initial (ofArrays toAdd))
                (mkPartial initial (ofArrays toAdd) true (Some 0)) 0
                (reaches_here _ _ _)
                (or_introl eq_refl)
                (ex_intro _ [] (conj eq_refl eq_refl))).
  vm_compute in H. discriminate.
Qed.

Lemma pieces_accounted_witness :
  exists st,
    afterIterations addFct costFct 2 (initialState initial (ofArrays toAdd))
    = Some st /\
    forall item, In item (stack st) ->
      exists n, foldedFrom addFct initial n (partial item) /\
                n + length (remaining item) = 3.
Proof.
  eexists. split; [reflexivity|].
  apply (pieces_accounted Plan Candidate addFct costFct initial (ofArrays toAdd)).
  apply (afterIterations_reaches _ _ _ _ 2). reflexivity.
Defined.

Lemma best_result_evolution_witness :
  exists st st',
    afterIterations addFct costFct 5 (initialState initial (ofArrays toAdd))
    = Some st /\
    step addFct costFct st = Some (inr st') /\
    min st = Some {| best := [a1; b1; c1]; cost := 3 |} /\
    min st' = Some {| best := [a1; b2; c1]; cost := 2 |} /\
    (min st = None <-> calls st = []) /\
    (forall m, min st = Some m ->
       exists m', min st' = Some m' /\
         (m' = m \/
          ((cost m' < cost m)%Z /\
           calls st' = calls st ++ [mkCall (best m') (cost m') (Some (cost m))]))) /\
    (forall p c previous,
       min st = None -> calls st' = calls st ++ [mkCall p c previous] ->
       min st' = Some (mkMin p c) /\ previous = None) /\
    (forall m p c previous,
       min st = Some m -> calls st' = calls st ++ [mkCall p c previous] ->
       c = cost m -> min st' = Some m) /\
    (forall m', min st' = Some m' ->
       In (best m') (completions addFct initial (ofArrays toAdd)) /\
       cost m' = costFct (best m')).
Proof.
  eexists. eexists. split; [reflexivity|]. split; [reflexivity|].
  split; [reflexivity|]. split; [reflexivity|].
  apply (best_result_evolution Plan Candidate addFct costFct initial
           (ofArrays toAdd)).
  - apply (afterIterations_reaches _ _ _ _ 5). reflexivity.
  - reflexivity.
Defined.

Lemma insertInStack_order_witness :
  exists st item rest,
    afterIterations addFct costFct 3
      (initialState initial (ofArrays [[a1]; [b1; b2]; [c1; a2]])) = Some st /\
    pop (stack st) = Some (item, rest) /\
    index item = None /\
    rest <> [] /\
    forall item', In item' rest -> index item' = None.
Proof.
  eexists. eexists. eexists. split; [reflexivity|]. split; [reflexivity|].
  split; [reflexivity|]. split; [discriminate|].
  destruct (insertInStack_order Plan Candidate addFct costFct initial
              (ofArrays [[a1]; [b1; b2]; [c1; a2]])) as (_ & _ & Horder & _).
  eapply Horder.
  - apply (afterIterations_reaches _ _ _ _ 3). reflexivity.
  - reflexivity.
  - reflexivity.
Defined.

Lemma empty_choice_set_throws_witness :
  exists message,
    generateAllPlansAndFindBest addFct costFct initial [[Some a1; Some a2]; []]
    = Some (Threw (AssertionError message), []).
Proof.
  apply (empty_choice_set_throws Plan Candidate addFct costFct initial).
  exists []. split; [right; left; reflexivity|reflexivity].
Defined.

(** On an empty choice list the first iteration raises a [TypeError], and a
    choice set whose slot 0 is empty fails the assertion of [pickNext] even
    though another slot is populated. *)
Lemma loop_does_not_always_return :
  ((forall c, In c (@nil (Choices Candidate)) -> populatedCount c <> 0) /\
   generateAllPlansAndFindBest addFct costFct initial []
   = Some (Threw TypeError, [])) /\
  ((forall c, In c [[None; Some a1]] -> populatedCount c <> 0) /\
   generateAllPlansAndFindBest addFct costFct initial [[None; Some a1]]
   = Some (Threw (AssertionError "Invalid index"), [])).
Proof.
  split; split.
  - intros c [].
  - reflexivity.
  - intros c [<-|[]]. discriminate.
  - reflexivity.
Qed.

Lemma generateAllPlansAndFindBest_returns_witness :
  exists m observed,
    generateAllPlansAndFindBest addFct costFct initial (ofArrays toAdd)
    = Some (Returned m, observed).
Proof.
  apply (generateAllPlansAndFindBest_returns Plan Candidate addFct costFct
           initial toAdd).
  - discriminate.
  - exact toAdd_nonempty_sets.
Defined.

Lemma first_observed_plan_witness :
  exists completion observed,
    generateAllPlansAndFindBest addFct costFct initial (ofArrays toAdd)
    = Some (completion, observed) /\
    exists es rest,
      Forall2 (fun c e => nth_error c 0 = Some e) toAdd es /\
      observed = mkCall (fold_left addFct es initial)
                   (costFct (fold_left addFct es initial)) None :: rest.
Proof.
  destruct (first_observed_plan Plan Candidate addFct costFct initial toAdd)
    as (completion & observed & Hrun & Hfirst & _).
  - discriminate.
  - exists completion, observed. split; [exact Hrun|].
    apply Hfirst. exact toAdd_nonempty_sets.
Defined.

End ScenarioFacts.

(** ** The further theorems at concrete inputs *)

Module ScenarioExtras.

Import Scenario.

Lemma pickNext_then_extract_witness :
  1 < length [None; Some 5] /\
  exists x, extract 1 [None; Some 5] = inr x /\
            nth_error [None; Some 5] 1 = Some (Some (extracted x)).
Proof.
  exact (pickNext_then_extract nat None [None; Some 5] 1 eq_refl).
Defined.

Lemma extract_candidates_witness :
  exists before after,
    candidates [Some 7; Some 8; None; Some 9] = before ++ 8 :: after /\
    candidates [Some 7; None; None; Some 9] = before ++ after /\
    populatedCount [Some 7; Some 8; None; Some 9]
    = S (populatedCount [Some 7; None; None; Some 9]) /\
    (false = true <-> candidates [Some 7; None; None; Some 9] = []).
Proof.
  exact (extract_candidates nat 1 [Some 7; Some 8; None; Some 9]
           (mkExtractResult 8 false [Some 7; None; None; Some 9]) eq_refl).
Defined.

Lemma loop_iteration_bound_witness :
  6 <= searchBound (ofArrays toAdd) /\
  loop addFct costFct 50 (initialState initial (ofArrays toAdd))
  = generateAllPlansAndFindBest addFct costFct initial (ofArrays toAdd).
Proof.
  destruct (loop_iteration_bound Plan Candidate addFct costFct initial
              (ofArrays toAdd)) as (_ & Hiterations & Hfuel).
  split.
  - eapply Hiterations. reflexivity.
  - apply Hfuel. vm_compute. lia.
Defined.

Lemma thrown_errors_witness :
  ([[None; Some a1]] = [] /\
   AssertionError "Invalid index" = TypeError /\ @nil (Call Plan) = []) \/
  ([[None; Some a1]] <> [] /\
   (AssertionError "Invalid index"
    = AssertionError "Passed a remaining with all undefined" \/
    AssertionError "Invalid index" = AssertionError "Invalid index")).
Proof.
  exact (thrown_errors Plan Candidate addFct costFct initial [[None; Some a1]]
           (AssertionError "Invalid index") [] eq_refl).
Defined.

Lemma observed_plans_complete_witness :
  In [a1; b2; c1] (completions addFct initial (ofArrays toAdd)) /\
  2%Z = costFct [a1; b2; c1].
Proof.
  exact (observed_plans_complete Plan Candidate addFct costFct initial
           (ofArrays toAdd) (Returned (mkMin [a1; b2; c1] 2))
           [ mkCall [a1; b1; c1] 3 None; mkCall [a1; b2; c1] 2 (Some 3%Z) ]
           eq_refl
           (mkCall [a1; b2; c1] 2 (Some 3%Z))
           (or_intror (or_introl eq_refl))).
Defined.




Lemma hole_at_first_slot_throws_witness :
  exists message,
    generateAllPlansAndFindBest addFct costFct initial
      [[Some a1; Some a2]; [None; Some b1]]
    = Some (Threw (AssertionError message), []).
Proof.
  apply (hole_at_first_slot_throws Plan Candidate addFct costFct initial).
  exists [None; Some b1]. split.
  - right. left. reflexivity.
  - intros e H. discriminate.
Defined.

Lemma returns_iff_well_formed_witness :
  (toAdd <> [] /\ forall c, In c toAdd -> c <> []) /\
  ~ (exists m observed,
       generateAllPlansAndFindBest addFct costFct initial (ofArrays [[a1]; []])
       = Some (Returned m, observed)).
Proof.
  split.
  - apply (proj1 (returns_iff_well_formed Plan Candidate addFct costFct initial toAdd)).
    eexists. eexists. reflexivity.
  - intros H.
    apply (proj1 (returns_iff_well_formed Plan Candidate addFct costFct initial
                    [[a1]; []])) in H.
    destruct H as [_ H]. apply (H []); [right; left; reflexivity|reflexivity].
Defined.

Lemma single_candidates_one_plan_witness :
  generateAllPlansAndFindBest addFct costFct initial
    (ofArrays (map (fun e => [e]) [a1; b2; c1]))
  = Some (Returned (mkMin [a1; b2; c1] 2), [mkCall [a1; b2; c1] 2 None]).
Proof.
  apply (single_candidates_one_plan Plan Candidate addFct costFct initial
           [a1; b2; c1]).
  discriminate.
Defined.

Lemma single_piece_tries_all_witness :
  exists m observed,
    generateAllPlansAndFindBest addFct costFct initial (ofArrays [[a2; a1; b1]])
    = Some (Returned m, observed) /\
    map (@callPlan Plan) observed = [[a2]; [a1]; [b1]].
Proof.
  apply (single_piece_tries_all Plan Candidate addFct costFct initial [a2; a1; b1]).
  discriminate.
Defined.

End ScenarioExtras.
